(** * Tic-Tac-Toe area controller and leaderboard

    A shallow embedding of
    [frontend/src/classes/interactable/TicTacToeAreaController.ts] and
    [frontend/src/components/Town/interactables/Leaderboard.tsx],
    followed by the properties of the derived views, of snapshot
    application, of move requests and of the leaderboard tally. *)

From stdpp Require Import base numbers list strings sorting.

Open Scope string_scope.
Open Scope list_scope.

(** ** JavaScript preliminaries *)

(** What a [throw] carries: the [TypeError] of the runtime (a property
    access on [undefined]) or an [Error] built with a message. *)
Inductive Exn : Type :=
  | TypeError
  | Error (msg : string).

#[global] Instance Exn_eq_dec : EqDecision Exn.
Proof. solve_decision. Defined.

(** A computation that returns or throws. *)
Definition Res (A : Type) : Type := Exn + A.

#[global] Instance Res_eq_dec {A} `{EqDecision A} : EqDecision (Res A).
Proof. unfold Res. apply _. Defined.

#[global] Instance Res_ret : MRet Res := λ A a, inr a.
#[global] Instance Res_bind : MBind Res := λ A B k m,
  match m with
  | inl e => inl e
  | inr a => k a
  end.

Definition throw {A} (e : Exn) : Res A := inl e.
Definition ret {A} (a : A) : Res A := mret a.

(** Truthiness of a [string | undefined]: [undefined] and the empty
    string are falsy. *)
Definition truthy (s : option string) : bool :=
  match s with
  | None => false
  | Some s => negb (String.eqb s "")
  end.

(** A name that denotes a method, used as a value without calling it:
    a function object, always truthy. *)
Definition method_value_truthy {A B} (_ : A → B) : bool := true.

(** [a[i] = v] on an array: in range the slot is replaced, past the
    end the array grows and the slots in between are holes, which read
    as [undefined]. *)
Definition array_set {A} (a : list (option A)) (i : nat) (v : option A)
  : list (option A) :=
  if decide (i < length a) then <[i := v]> a
  else a ++ replicate (i - length a) None ++ [v].

(** [a[i]] on an array of cells: [undefined] out of range. *)
Definition array_get {A} (a : list (option A)) (i : nat) : option A :=
  match a !! i with
  | Some v => v
  | None => None
  end.

(** ** Shared types ([types/CoveyTownSocket]) *)

Abbreviation PlayerID := string (only parsing).
Abbreviation GameInstanceID := string (only parsing).
Abbreviation InteractableID := string (only parsing).

Inductive GameStatus : Type :=
  | IN_PROGRESS
  | WAITING_TO_START
  | OVER.

#[global] Instance GameStatus_eq_dec : EqDecision GameStatus.
Proof. solve_decision. Defined.

Module Piece.
Inductive t : Type := X | O.
#[global] Instance eq_dec : EqDecision t.
Proof. solve_decision. Defined.
End Piece.

(** [TicTacToeGridPosition] is [0 | 1 | 2]; at run time a position is a
    number, and [valid_position] is what the type promises. *)
Abbreviation TicTacToeGridPosition := nat (only parsing).

Definition valid_position (p : TicTacToeGridPosition) : Prop := p < 3.

Record TicTacToeMove : Type := mkMove {
  gamePiece : Piece.t;
  row : TicTacToeGridPosition;
  col : TicTacToeGridPosition;
}.

Record TicTacToeGameState : Type := mkState {
  state_status : GameStatus;
  state_x : option PlayerID;
  state_o : option PlayerID;
  state_moves : list TicTacToeMove;
  state_winner : option PlayerID;
}.

Record GameInstance : Type := mkGame {
  game_id : GameInstanceID;
  game_players : list PlayerID;
  game_state : TicTacToeGameState;
}.

(** One historical result: the [scores] object, as the list of its
    entries in the order [Object.keys] enumerates them. *)
Record GameResult : Type := mkResult {
  gameID : GameInstanceID;
  scores : list (string * Z);
}.

Record GameArea : Type := mkArea {
  area_id : InteractableID;
  occupants : list PlayerID;
  history : list GameResult;
  game : option GameInstance;
}.

Record GameMoveCommand : Type := mkGameMove {
  cmd_gameID : GameInstanceID;
  cmd_move : TicTacToeMove;
}.

(** A [PlayerController] object: [ref] is the identity of the object,
    what [===] compares; [player_id] is its [id] property. *)
Record PlayerController : Type := mkPlayer {
  ref : nat;
  player_id : PlayerID;
}.

(** [a === b] on [PlayerController | undefined]. *)
Definition same_player (a b : option PlayerController) : bool :=
  match a, b with
  | None, None => true
  | Some p, Some q => Nat.eqb (ref p) (ref q)
  | _, _ => false
  end.

Record TownController : Type := mkTown {
  ourPlayer : PlayerController;
}.

(** [Array.prototype.find]. *)
Fixpoint find_player (f : PlayerController → bool) (l : list PlayerController)
  : option PlayerController :=
  match l with
  | [] => None
  | p :: l' => if f p then Some p else find_player f l'
  end.

(** [s === player.id] for [s : string | undefined]. *)
Definition id_is (s : option PlayerID) (p : PlayerController) : bool :=
  match s with
  | Some i => String.eqb i (player_id p)
  | None => false
  end.

(** ** The controller *)

Definition PLAYER_NOT_IN_GAME_ERROR : string := "Player is not in game".
Definition NO_GAME_IN_PROGRESS_ERROR : string := "No game in progress".

Abbreviation TicTacToeCell := (option Piece.t) (only parsing).
Abbreviation Board := (list (list TicTacToeCell)) (only parsing).

Module TicTacToeAreaController.

(** The fields the class reads: its own [id], and the ones it
    inherits from [GameAreaController] ([_model], [_players] behind
    the [players] getter, [_instanceID], [_townController]). *)
Record t : Type := mk {
  id : InteractableID;
  _model : GameArea;
  players : list PlayerController;
  _instanceID : option GameInstanceID;
  _townController : TownController;
}.

(** [this._model.game?.state] *)
Definition gameState (c : t) : option TicTacToeGameState :=
  match game (_model c) with
  | Some g => Some (game_state g)
  | None => None
  end.

(** [this._model.game?.state.moves || []] *)
Definition current_moves (c : t) : list TicTacToeMove :=
  match gameState c with
  | Some s => state_moves s
  | None => []
  end.

Definition empty_board : Board :=
  [ [None; None; None]; [None; None; None]; [None; None; None] ].

(** [board[row][col] = piece]: throws when [board[row]] is
    [undefined]. *)
Definition place (b : Board) (m : TicTacToeMove) : Res Board :=
  match b !! row m with
  | None => throw TypeError
  | Some r => ret (<[row m := array_set r (col m) (Some (gamePiece m))]> b)
  end.

(** The [for] loop of the [board] getter. *)
Fixpoint replay (b : Board) (ms : list TicTacToeMove) : Res Board :=
  match ms with
  | [] => ret b
  | m :: ms' => b' ← place b m; replay b' ms'
  end.

Definition board (c : t) : Res Board := replay empty_board (current_moves c).

(** [this._model.game?.state.x] and [this._model.game?.state.o] *)
Definition seat_x (c : t) : option PlayerID :=
  match gameState c with
  | Some s => state_x s
  | None => None
  end.

Definition seat_o (c : t) : option PlayerID :=
  match gameState c with
  | Some s => state_o s
  | None => None
  end.

Definition x (c : t) : option PlayerController :=
  find_player (id_is (seat_x c)) (players c).

Definition o (c : t) : option PlayerController :=
  find_player (id_is (seat_o c)) (players c).

Definition moveCount (c : t) : nat := length (current_moves c).

Definition winner (c : t) : option PlayerController :=
  find_player (id_is (match gameState c with
                      | Some s => state_winner s
                      | None => None
                      end)) (players c).

(** The [for ... of players] loop of [whoseTurn]. *)
Fixpoint whoseTurn_loop (count : nat) (s : TicTacToeGameState)
    (ps : list PlayerController) : option PlayerController :=
  match ps with
  | [] => None
  | player :: ps' =>
      if Nat.eqb (count mod 2) 0 && truthy (state_x s)
         && id_is (state_x s) player
      then Some player
      else if negb (Nat.eqb (count mod 2) 0) && truthy (state_o s)
              && id_is (state_o s) player
      then Some player
      else whoseTurn_loop count s ps'
  end.

Definition whoseTurn (c : t) : option PlayerController :=
  match gameState c with
  | Some s =>
      if decide (state_status s = IN_PROGRESS)
      then whoseTurn_loop (moveCount c) s (players c)
      else None
  | None => None
  end.

Definition isOurTurn (c : t) : bool :=
  match gameState c with
  | None => false
  | Some s =>
      if decide (state_status s = IN_PROGRESS)
      then same_player (Some (ourPlayer (_townController c))) (whoseTurn c)
      else false
  end.

Definition isPlayer (c : t) : bool :=
  existsb (fun player =>
             String.eqb (player_id player)
                        (player_id (ourPlayer (_townController c))))
          (players c).

Definition gamePiece (c : t) : Res Piece.t :=
  if negb (isPlayer c) then throw (Error PLAYER_NOT_IN_GAME_ERROR)
  else if same_player (Some (ourPlayer (_townController c))) (x c)
  then ret Piece.X
  else ret Piece.O.

(** [this._model.game?.state.status || 'WAITING_TO_START']: every
    status is a non-empty string, so only a missing game defaults. *)
Definition status (c : t) : GameStatus :=
  match gameState c with
  | Some s => state_status s
  | None => WAITING_TO_START
  end.

Definition isActive (c : t) : bool :=
  if decide (status c = IN_PROGRESS) then true else false.

(** The nested [for] loops of [_areBoardEqual], as the cells they
    visit in order: the first pair of cells that differ returns
    [false]. *)
Definition cell (b : Board) (i j : nat) : Res TicTacToeCell :=
  match b !! i with
  | None => throw TypeError
  | Some r => ret (array_get r j)
  end.

Definition cell_indices : list (nat * nat) :=
  i ← seq 0 3; j ← seq 0 3; [(i, j)].

Fixpoint areBoardEqual_loop (board1 board2 : Board) (ijs : list (nat * nat))
  : Res bool :=
  match ijs with
  | [] => ret true
  | (i, j) :: ijs' =>
      c1 ← cell board1 i j;
      c2 ← cell board2 i j;
      if decide (c1 ≠ c2) then ret false
      else areBoardEqual_loop board1 board2 ijs'
  end.

Definition _areBoardEqual (board1 board2 : Board) : Res bool :=
  areBoardEqual_loop board1 board2 cell_indices.

(** Events of the inherited [GameEventTypes] that this repository's
    components listen to. *)
Inductive GameEvent : Type :=
  | gameUpdated
  | gameEnd.

Inductive TicTacToeEvent : Type :=
  | boardChanged (board : Board)
  | turnChanged (isOurTurn : bool)
  | inherited (e : GameEvent).

Section UpdateFrom.

(** [GameAreaController._updateFrom], the inherited method: it
    returns the controller with its common properties updated and
    the events it emitted. *)
Variable super_updateFrom : t → GameArea → t * list GameEvent.

Definition _updateFrom (c : t) (newModel : GameArea)
  : Res (t * list TicTacToeEvent) :=
  oldBoard ← board c;
  let oldIsOurTurn := isOurTurn c in
  let '(c', inherited_events) := super_updateFrom c newModel in
  newBoard ← board c';
  equal ← _areBoardEqual oldBoard newBoard;
  let hasBoardChanged := negb equal in
  board_events ←
    (if hasBoardChanged then b ← board c'; ret [boardChanged b]
     else ret []);
  let turn_events :=
    if negb (eqb oldIsOurTurn (isOurTurn c'))
    then [turnChanged (isOurTurn c')]
    else [] in
  ret (c', map inherited inherited_events ++ board_events ++ turn_events).

End UpdateFrom.

Section MakeMove.

(** How the transport settles a command handed to
    [sendInteractableCommand]: it resolves or rejects. *)
Variable transport_reply : InteractableID → GameMoveCommand → Res unit.

(** The outcome of the call and the commands handed to
    [sendInteractableCommand] during it. *)
Definition makeMove (c : t) (row col : TicTacToeGridPosition)
  : Res unit * list (InteractableID * GameMoveCommand) :=
  if negb (method_value_truthy isActive)
  then (throw (Error NO_GAME_IN_PROGRESS_ERROR), [])
  else
    match _instanceID c with
    | Some instanceID =>
        if negb (truthy (Some instanceID))
        then (throw (Error NO_GAME_IN_PROGRESS_ERROR), [])
        else
          match gamePiece c with
          | inl e => (inl e, [])
          | inr piece =>
              let gameMoveRequest :=
                {| cmd_gameID := instanceID;
                   cmd_move := mkMove piece row col |} in
              (transport_reply (id c) gameMoveRequest,
               [(id c, gameMoveRequest)])
          end
    | None => (throw (Error NO_GAME_IN_PROGRESS_ERROR), [])
    end.

End MakeMove.

End TicTacToeAreaController.

(** ** The leaderboard *)

Module Leaderboard.

Record PlayerStats : Type := mkStats {
  name : string;
  wins : nat;
  losses : nat;
  ties : nat;
}.

(** A [Map<string, PlayerStats>]: its entries in insertion order. *)
Definition StatsMap := list (string * PlayerStats).

Fixpoint map_get (m : StatsMap) (k : string) : option PlayerStats :=
  match m with
  | [] => None
  | (k', v) :: m' => if String.eqb k k' then Some v else map_get m' k
  end.

(** [Map.prototype.set]: an existing key keeps its place. *)
Fixpoint map_set (m : StatsMap) (k : string) (v : PlayerStats) : StatsMap :=
  match m with
  | [] => [(k, v)]
  | (k', v') :: m' =>
      if String.eqb k k' then (k', v) :: m' else (k', v') :: map_set m' k v
  end.

(** [scores[player]] *)
Fixpoint score_of (scores : list (string * Z)) (player : string) : option Z :=
  match scores with
  | [] => None
  | (k, v) :: scores' =>
      if String.eqb player k then Some v else score_of scores' player
  end.

(** [a > b] on numbers; a comparison with [undefined] is false. *)
Definition js_gt (a b : option Z) : bool :=
  match a, b with
  | Some a, Some b => Z.ltb b a
  | _, _ => false
  end.

Definition js_lt (a b : option Z) : bool := js_gt b a.

(** The body of the innermost [forEach]. *)
Definition compare_with (scores : list (string * Z)) (player : string)
    (playerScore : option Z) (currentStats : PlayerStats) (opponent : string)
  : PlayerStats :=
  if negb (String.eqb player opponent) then
    if js_gt playerScore (score_of scores opponent)
    then {| name := name currentStats; wins := wins currentStats + 1;
            losses := losses currentStats; ties := ties currentStats |}
    else if js_lt playerScore (score_of scores opponent)
    then {| name := name currentStats; wins := wins currentStats;
            losses := losses currentStats + 1; ties := ties currentStats |}
    else {| name := name currentStats; wins := wins currentStats;
            losses := losses currentStats; ties := ties currentStats + 1 |}
  else currentStats.

(** The body of [players.forEach(player => ...)]. *)
Definition tally_player (scores : list (string * Z)) (players : list string)
    (statsMap : StatsMap) (player : string) : StatsMap :=
  let currentStats :=
    match map_get statsMap player with
    | Some s => s
    | None => {| name := player; wins := 0; losses := 0; ties := 0 |}
    end in
  let playerScore := score_of scores player in
  map_set statsMap player
    (foldl (compare_with scores player playerScore) currentStats players).

(** The body of [results.forEach(result => ...)]. *)
Definition tally_result (statsMap : StatsMap) (result : GameResult) : StatsMap :=
  let players := map fst (scores result) in
  foldl (tally_player (scores result) players) statsMap players.

Definition tally (results : list GameResult) : StatsMap :=
  foldl tally_result [] results.

(** [sort((a, b) => b.wins - a.wins)]: a stable sort, most wins
    first; a row goes before the rows that follow it in the map and
    have no more wins than it has. *)
Fixpoint insert_by_wins (s : PlayerStats) (l : list PlayerStats)
  : list PlayerStats :=
  match l with
  | [] => [s]
  | s' :: l' =>
      if decide (wins s' ≤ wins s)%nat then s :: s' :: l'
      else s' :: insert_by_wins s l'
  end.

Definition sort_by_wins (l : list PlayerStats) : list PlayerStats :=
  foldr insert_by_wins [] l.

(** The rows of the rendered table, top to bottom. *)
Definition Leaderboard (results : list GameResult) : list PlayerStats :=
  sort_by_wins (map snd (tally results)).

End Leaderboard.

(** ** The board component ([TicTacToeBoard]) *)

Module TicTacToeBoard.

Record Toast : Type := mkToast {
  description : string;
  toast_status : string;
}.

Section HandleSquareClick.

Variable transport_reply : InteractableID → GameMoveCommand → Res unit.

(** The [message] of the runtime's [TypeError], which the engine
    words. *)
Variable type_error_message : string.

(** [error.message] *)
Definition message (error : Exn) : string :=
  match error with
  | TypeError => type_error_message
  | Error msg => msg
  end.

(** [handleSquareClick]: the toasts it shows and the commands handed
    to the transport; what [makeMove] throws is caught. *)
Definition handleSquareClick (gameAreaController : TicTacToeAreaController.t)
    (row col : TicTacToeGridPosition)
  : list Toast * list (InteractableID * GameMoveCommand) :=
  match TicTacToeAreaController.makeMove transport_reply gameAreaController
          row col with
  | (inr _, sent) => ([], sent)
  | (inl error, sent) =>
      ([ {| description := String.append "Error: " (message error);
            toast_status := "error" |} ], sent)
  end.

End HandleSquareClick.

End TicTacToeBoard.

(** * Properties *)

Module C := TicTacToeAreaController.

(** What the types of a snapshot promise about its moves. *)
Definition valid_move (m : TicTacToeMove) : Prop :=
  valid_position (row m) ∧ valid_position (col m).

Definition wf_model (m : GameArea) : Prop :=
  match game m with
  | Some g => Forall valid_move (state_moves (game_state g))
  | None => True
  end.

(** A grid of three rows of three cells. *)
Definition three_by_three (b : Board) : Prop :=
  length b = 3 ∧ Forall (λ r, length r = 3) b.

Definition position (m : TicTacToeMove) : nat * nat := (row m, col m).

(** The piece of the last move of a history that targets cell
    [(i, j)], if any move does. *)
Definition last_piece_at (ms : list TicTacToeMove) (i j : nat) : TicTacToeCell :=
  gamePiece <$> last (filter (λ m, position m = (i, j)) ms).

Definition is_filled (b : Board) (ij : nat * nat) : bool :=
  match C.cell b ij.1 ij.2 with
  | inr (Some _) => true
  | _ => false
  end.

Definition filled_cells (b : Board) : list (nat * nat) :=
  filter (λ ij, is_filled b ij) C.cell_indices.

Definition empty_cells (b : Board) : list (nat * nat) :=
  filter (λ ij, ¬ is_filled b ij) C.cell_indices.

(** ** Sample inputs *)

Definition alice : PlayerController := mkPlayer 1 "alice".
Definition bob : PlayerController := mkPlayer 2 "bob".
Definition carol : PlayerController := mkPlayer 3 "carol".

(** A player object whose [id] is the empty string. *)
Definition anonymous : PlayerController := mkPlayer 4 "".

Definition sample_state (st : GameStatus) (ms : list TicTacToeMove)
  : TicTacToeGameState :=
  {| state_status := st; state_x := Some "alice"; state_o := Some "bob";
     state_moves := ms; state_winner := None |}.

Definition sample_area (g : option GameInstance) : GameArea :=
  {| area_id := "area"; occupants := ["alice"; "bob"]; history := [];
     game := g |}.

Definition sample_model (st : GameStatus) (ms : list TicTacToeMove) : GameArea :=
  sample_area (Some {| game_id := "game"; game_players := ["alice"; "bob"];
                       game_state := sample_state st ms |}).

(** Alice (X) and Bob (O) are seated; [viewer] looks at the game and
    holds the session identifier [session]. *)
Definition sample_controller (st : GameStatus) (ms : list TicTacToeMove)
    (session : option GameInstanceID) (viewer : PlayerController) : C.t :=
  {| C.id := "area"; C._model := sample_model st ms;
     C.players := [alice; bob]; C._instanceID := session;
     C._townController := {| ourPlayer := viewer |} |}.

(** No game object in the model. *)
Definition idle_controller : C.t :=
  {| C.id := "area"; C._model := sample_area None; C.players := [];
     C._instanceID := None; C._townController := {| ourPlayer := alice |} |}.

(** Carol is among the players of the game but holds neither seat. *)
Definition unseated_player_controller : C.t :=
  {| C.id := "area"; C._model := sample_model IN_PROGRESS [];
     C.players := [alice; bob; carol]; C._instanceID := Some "game";
     C._townController := {| ourPlayer := carol |} |}.

(** The X seat is recorded under the empty identifier, which is the
    [id] of a player of the game. *)
Definition empty_seat_id_controller : C.t :=
  {| C.id := "area";
     C._model :=
       sample_area
         (Some {| game_id := "game"; game_players := [""; "bob"];
                  game_state :=
                    {| state_status := IN_PROGRESS; state_x := Some "";
                       state_o := Some "bob"; state_moves := [];
                       state_winner := None |} |});
     C.players := [anonymous; bob]; C._instanceID := Some "game";
     C._townController := {| ourPlayer := anonymous |} |}.

(** Modelled from the spec: [GameAreaController._updateFrom], which is
    not among the sources; it replaces the held snapshot wholesale and
    announces the update. *)
Definition base_updateFrom (c : C.t) (newModel : GameArea)
  : C.t * list C.GameEvent :=
  ({| C.id := C.id c; C._model := newModel; C.players := C.players c;
      C._instanceID := C._instanceID c;
      C._townController := C._townController c |},
   [C.gameUpdated]).

(** A transport that acknowledges every command. *)
Definition acknowledge (_ : InteractableID) (_ : GameMoveCommand) : Res unit :=
  inr tt.

(** Two boards differ when one of the nine cells does. *)
Definition boards_differ (b1 b2 : Board) : Prop :=
  ∃ i j, i < 3 ∧ j < 3 ∧ C.cell b1 i j ≠ C.cell b2 i j.

(** ** The tally, in the words of the specification *)

Module L := Leaderboard.

Definition players_of (r : GameResult) : list string := map fst (scores r).

(** In result [r], [p] and [q] are distinct players and [p] scored
    strictly higher than [q]. *)
Definition beats (r : GameResult) (p q : string) : bool :=
  match L.score_of (scores r) p, L.score_of (scores r) q with
  | Some a, Some b => bool_decide (p ≠ q) && bool_decide (b < a)%Z
  | _, _ => false
  end.

(** In result [r], [p] and [q] are distinct players with equal
    scores. *)
Definition ties_with (r : GameResult) (p q : string) : bool :=
  match L.score_of (scores r) p, L.score_of (scores r) q with
  | Some a, Some b => bool_decide (p ≠ q) && bool_decide (a = b)
  | _, _ => false
  end.

(** Each pair in which [p] scored higher is a win for [p]; each pair
    in which the other player scored higher is a loss for [p]; each
    pair of equal scores is a tie for [p]. *)
Definition wins_in (r : GameResult) (p : string) : nat :=
  length (filter (λ q, beats r p q) (players_of r)).

Definition losses_in (r : GameResult) (p : string) : nat :=
  length (filter (λ q, beats r q p) (players_of r)).

Definition ties_in (r : GameResult) (p : string) : nat :=
  length (filter (λ q, ties_with r p q) (players_of r)).

Definition expected_row (results : list GameResult) (p : string) : L.PlayerStats :=
  {| L.name := p;
     L.wins := sum_list_with (λ r, wins_in r p) results;
     L.losses := sum_list_with (λ r, losses_in r p) results;
     L.ties := sum_list_with (λ r, ties_in r p) results |}.

(** The players encountered across all results. *)
Definition encountered (results : list GameResult) : list string :=
  concat (map players_of results).

Definition more_wins (a b : L.PlayerStats) : Prop := (L.wins b ≤ L.wins a)%nat.

(** The row of [p] once result [r] has been added to it. *)
Definition add_result (r : GameResult) (p : string) (s : L.PlayerStats)
  : L.PlayerStats :=
  {| L.name := L.name s;
     L.wins := L.wins s + wins_in r p;
     L.losses := L.losses s + losses_in r p;
     L.ties := L.ties s + ties_in r p |}.

Definition row_or_new (m : L.StatsMap) (p : string) : L.PlayerStats :=
  match L.map_get m p with
  | Some s => s
  | None => {| L.name := p; L.wins := 0; L.losses := 0; L.ties := 0 |}
  end.

(** What the statistics map holds once [results] have been tallied:
    one entry per player encountered, holding the row the
    specification describes. *)
Definition tallied (results : list GameResult) (m : L.StatsMap) : Prop :=
  NoDup (map fst m) ∧
  ∀ k, L.map_get m k =
       if decide (k ∈ encountered results) then Some (expected_row results k)
       else None.

(** The history [[{A: 1, B: 0}]]. *)
Definition one_win : list GameResult :=
  [ {| gameID := "game"; scores := [("A", 1%Z); ("B", 0%Z)] |} ].

(** [this._model.game?.state.winner] *)
Definition recorded_winner (c : C.t) : option PlayerID :=
  match C.gameState c with
  | Some s => state_winner s
  | None => None
  end.

(** [r] is what a search for the first player of [ps] whose [id] is
    [s] gives. *)
Definition first_with_id (s : option PlayerID) (ps : list PlayerController)
    (r : option PlayerController) : Prop :=
  match r with
  | Some p =>
      ∃ before after, ps = before ++ p :: after ∧ s = Some (player_id p) ∧
                      ∀ q, q ∈ before → s ≠ Some (player_id q)
  | None => ∀ q, q ∈ ps → s ≠ Some (player_id q)
  end.

(** The seat whose holder is to play after [n] moves. *)
Definition seat_to_play (c : C.t) : option PlayerID :=
  if Nat.even (C.moveCount c) then C.seat_x c else C.seat_o c.

(** Two controllers that differ at most in what the snapshot says of
    the progress of the game: status, moves, winner, O seat. *)
Definition same_session (c1 c2 : C.t) : Prop :=
  C.id c1 = C.id c2 ∧ C.players c1 = C.players c2 ∧
  C._instanceID c1 = C._instanceID c2 ∧
  C._townController c1 = C._townController c2 ∧
  C.seat_x c1 = C.seat_x c2.

(** [newModel.game?.state] and its moves. *)
Definition model_state (m : GameArea) : option TicTacToeGameState :=
  match game m with
  | Some g => Some (game_state g)
  | None => None
  end.

Definition model_moves (m : GameArea) : list TicTacToeMove :=
  match model_state m with
  | Some s => state_moves s
  | None => []
  end.

(** The events [_updateFrom] adds to the inherited ones come in this
    shape: at most one [boardChanged], then at most one
    [turnChanged]. *)
Definition own_events (l : list C.TicTacToeEvent) : Prop :=
  ∃ on_board on_turn,
    l = on_board ++ on_turn ∧
    (on_board = [] ∨ ∃ b, on_board = [C.boardChanged b]) ∧
    (on_turn = [] ∨ ∃ v, on_turn = [C.turnChanged v]).

(** The number of opponents [p] meets in result [r]. *)
Definition opponents_in (r : GameResult) (p : string) : nat :=
  if decide (p ∈ players_of r) then length (players_of r) - 1 else 0.

(** The names of a list in the order of their first occurrence. *)
Definition first_seen (l : list string) : list string :=
  foldl (λ seen p, if decide (p ∈ seen) then seen else seen ++ [p]) [] l.

(** The same result with every score sent through [f]. *)
Definition map_scores (f : Z → Z) (r : GameResult) : GameResult :=
  {| gameID := gameID r;
     scores := map (λ kv, (kv.1, f kv.2)) (scores r) |}.

Definition well_keyed (results : list GameResult) : Prop :=
  Forall (λ r, NoDup (players_of r)) results.

(** ** Arrays *)

Lemma array_get_set {A} (a : list (option A)) (i j : nat) (v : option A) :
  array_get (array_set a i v) j = if decide (j = i) then v else array_get a j.
Proof.
  unfold array_get, array_set.
  destruct (decide (i < length a)) as [Hi | Hi].
  - destruct (decide (j = i)) as [-> | Hne].
    + by rewrite list_lookup_insert_eq.
    + by rewrite list_lookup_insert_ne.
  - destruct (decide (j = i)) as [-> | Hne].
    + rewrite lookup_app_r by lia.
      rewrite lookup_app_r by (rewrite length_replicate; lia).
      rewrite length_replicate.
      by replace (i - length a - (i - length a)) with 0 by lia.
    + destruct (decide (j < length a)) as [Hj | Hj].
      * by rewrite lookup_app_l.
      * rewrite lookup_app_r by lia.
        rewrite (lookup_ge_None_2 a j) by lia.
        destruct (decide (j < i)) as [Hji | Hji].
        -- rewrite lookup_app_l by (rewrite length_replicate; lia).
           rewrite lookup_replicate_2 by lia. done.
        -- rewrite lookup_ge_None_2; [done |].
           rewrite length_app, length_replicate. simpl. lia.
Qed.

(** ** The board getter *)

Lemma cell_indices_spec (i j : nat) :
  (i, j) ∈ C.cell_indices ↔ i < 3 ∧ j < 3.
Proof.
  split.
  - intros H. unfold C.cell_indices in H. simpl in H.
    repeat (apply elem_of_cons in H as [H | H]; [inversion H; lia |]).
    by apply elem_of_nil in H.
  - intros [Hi Hj].
    destruct i as [|[|[|i]]]; [| | | lia];
      (destruct j as [|[|[|j]]]; [| | | lia]);
      unfold C.cell_indices; simpl; repeat constructor.
Qed.

Lemma place_spec (b : Board) (m : TicTacToeMove) :
  length b = 3 → row m < 3 →
  ∃ b', C.place b m = inr b' ∧ length b' = 3 ∧
        ∀ i j, C.cell b' i j =
               if decide (position m = (i, j)) then inr (Some (gamePiece m))
               else C.cell b i j.
Proof.
  intros Hlen Hrow. unfold C.place.
  destruct (b !! row m) as [r |] eqn:Hr.
  2: { apply lookup_ge_None in Hr. lia. }
  eexists. split; [reflexivity |]. split; [by rewrite length_insert |].
  intros i j. unfold C.cell, position.
  destruct (decide (i = row m)) as [-> | Hne].
  - rewrite list_lookup_insert_eq by lia.
    unfold ret, mret, Res_ret. rewrite array_get_set.
    destruct (decide (j = col m)) as [-> | Hj].
    + by rewrite decide_True.
    + rewrite decide_False; [by rewrite Hr | congruence].
  - rewrite list_lookup_insert_ne by done.
    rewrite decide_False; [done | congruence].
Qed.

Lemma last_piece_at_cons (m : TicTacToeMove) (ms : list TicTacToeMove) (i j : nat) :
  last_piece_at (m :: ms) i j =
  match last_piece_at ms i j with
  | Some p => Some p
  | None => if decide (position m = (i, j)) then Some (gamePiece m) else None
  end.
Proof.
  unfold last_piece_at. rewrite filter_cons.
  destruct (decide (position m = (i, j))) as [Hm | Hm].
  - destruct (filter _ ms) as [| m' l] eqn:Hf; [done |].
    rewrite last_cons. by destruct (last (m' :: l)) eqn:Hl.
  - by destruct (last _).
Qed.

Lemma replay_spec (ms : list TicTacToeMove) (b : Board) :
  length b = 3 → Forall valid_move ms →
  ∃ b', C.replay b ms = inr b' ∧ length b' = 3 ∧
        ∀ i j, C.cell b' i j =
               match last_piece_at ms i j with
               | Some p => inr (Some p)
               | None => C.cell b i j
               end.
Proof.
  revert b. induction ms as [| m ms IH]; intros b Hlen Hwf.
  - exists b. by repeat split.
  - apply Forall_cons in Hwf as [[Hrow Hcol] Hwf].
    destruct (place_spec b m Hlen Hrow) as (b1 & Hplace & Hlen1 & Hcell1).
    destruct (IH b1 Hlen1 Hwf) as (b' & Hreplay & Hlen' & Hcell').
    exists b'. split; [| split; [done |]].
    + simpl. rewrite Hplace. exact Hreplay.
    + intros i j. rewrite Hcell', last_piece_at_cons, Hcell1.
      destruct (last_piece_at ms i j); [done |].
      by destruct (decide (position m = (i, j))).
Qed.

Lemma cell_empty_board (i j : nat) :
  i < 3 → C.cell C.empty_board i j = inr None.
Proof.
  intros Hi. destruct i as [|[|[|i]]]; [| | | lia];
    unfold C.cell; simpl; unfold array_get;
    by destruct j as [|[|[|j]]].
Qed.

Lemma board_spec (c : C.t) :
  Forall valid_move (C.current_moves c) →
  ∃ b, C.board c = inr b ∧ length b = 3 ∧
       ∀ i j, i < 3 →
              C.cell b i j = inr (last_piece_at (C.current_moves c) i j).
Proof.
  intros Hwf.
  destruct (replay_spec (C.current_moves c) C.empty_board eq_refl Hwf)
    as (b & Hb & Hlen & Hcell).
  exists b. split; [done |]. split; [done |].
  intros i j Hi. rewrite Hcell, cell_empty_board by done.
  by destruct (last_piece_at _ i j).
Qed.

Lemma array_set_length {A} (a : list (option A)) (i : nat) (v : option A) :
  i < length a → length (array_set a i v) = length a.
Proof.
  intros Hi. unfold array_set. rewrite decide_True by done.
  apply length_insert.
Qed.

Lemma replay_shape (ms : list TicTacToeMove) (b b' : Board) :
  three_by_three b → Forall valid_move ms → C.replay b ms = inr b' →
  three_by_three b'.
Proof.
  revert b. induction ms as [| m ms IH]; intros b Hshape Hwf Hreplay.
  - cbn in Hreplay. by inversion Hreplay; subst.
  - apply Forall_cons in Hwf as [[Hrow Hcol] Hwf].
    cbn [C.replay] in Hreplay. unfold C.place in Hreplay.
    destruct (b !! row m) as [r |] eqn:Hr; [| discriminate Hreplay].
    eapply IH; [| exact Hwf | exact Hreplay].
    destruct Hshape as [Hlen Hrows]. split.
    + by rewrite length_insert.
    + apply Forall_insert; [done |].
      rewrite array_set_length.
      * by apply (Forall_lookup_1 _ _ _ _ Hrows Hr).
      * rewrite (Forall_lookup_1 _ _ _ _ Hrows Hr). exact Hcol.
Qed.

Lemma empty_board_shape : three_by_three C.empty_board.
Proof. split; [done | by repeat constructor]. Qed.

Lemma wf_model_moves (c : C.t) :
  wf_model (C._model c) → Forall valid_move (C.current_moves c).
Proof.
  unfold wf_model, C.current_moves, C.gameState.
  destruct (game (C._model c)); [done | by intros _; apply Forall_nil].
Qed.

Lemma last_piece_at_None (ms : list TicTacToeMove) (i j : nat) :
  last_piece_at ms i j = None ↔ (i, j) ∉ map position ms.
Proof.
  induction ms as [| m ms IH].
  - split; [intros _; apply not_elem_of_nil | done].
  - rewrite last_piece_at_cons, map_cons, not_elem_of_cons.
    destruct (last_piece_at ms i j) as [p |].
    + split; [done |]. intros [_ H]. by apply IH in H.
    + destruct (decide (position m = (i, j))) as [Hm | Hm].
      * split; [done |]. intros [H _]. by destruct H.
      * split; [| done]. intros _. split; [congruence | by apply IH].
Qed.

Lemma last_piece_at_distinct (ms : list TicTacToeMove) (m : TicTacToeMove) :
  NoDup (map position ms) → m ∈ ms →
  last_piece_at ms (row m) (col m) = Some (gamePiece m).
Proof.
  induction ms as [| m' ms IH]; intros Hnd Hin.
  - by apply elem_of_nil in Hin.
  - rewrite map_cons in Hnd. apply NoDup_cons in Hnd as [Hfresh Hnd].
    rewrite last_piece_at_cons.
    apply elem_of_cons in Hin as [-> | Hin].
    + assert (last_piece_at ms (row m') (col m') = None) as ->
        by by apply last_piece_at_None.
      by rewrite decide_True.
    + by rewrite IH.
Qed.

Lemma is_filled_spec (b : Board) (ms : list TicTacToeMove) (i j : nat) :
  C.cell b i j = inr (last_piece_at ms i j) →
  is_filled b (i, j) ↔ (i, j) ∈ map position ms.
Proof.
  intros Hcell. unfold is_filled. simpl. rewrite Hcell.
  destruct (last_piece_at ms i j) as [p |] eqn:Hlast.
  - split; [intros _ | done].
    destruct (decide ((i, j) ∈ map position ms)) as [| Hn]; [done |].
    apply last_piece_at_None in Hn. congruence.
  - split; [done |]. intros Hin. by apply last_piece_at_None in Hlast.
Qed.

Lemma NoDup_cell_indices : NoDup C.cell_indices.
Proof. apply (bool_decide_unpack (NoDup C.cell_indices)). by vm_compute. Qed.

Lemma cells_partition (b : Board) :
  length (filled_cells b) + length (empty_cells b) = 9.
Proof.
  unfold filled_cells, empty_cells.
  rewrite <- length_app.
  by rewrite (filter_app_complement (λ ij, is_filled b ij) C.cell_indices).
Qed.

(** C4: a history of [n] valid moves on pairwise-distinct cells yields
    a 3×3 board on which each move's cell holds that move's piece,
    every cell no move targets is empty, exactly [n] of the nine cells
    are filled and the other [9 - n] are empty (so [n ≤ 9]). *)
Theorem board_of_distinct_moves (c : C.t) :
  Forall valid_move (C.current_moves c) →
  NoDup (map position (C.current_moves c)) →
  ∃ b, C.board c = inr b ∧
       three_by_three b ∧
       (∀ m, m ∈ C.current_moves c →
             C.cell b (row m) (col m) = inr (Some (gamePiece m))) ∧
       (∀ i j, i < 3 → j < 3 → (i, j) ∉ map position (C.current_moves c) →
               C.cell b i j = inr None) ∧
       length (filled_cells b) = C.moveCount c ∧
       length (empty_cells b) = 9 - C.moveCount c ∧
       (C.moveCount c ≤ 9)%nat.
Proof.
  intros Hwf Hnd.
  destruct (board_spec c Hwf) as (b & Hb & Hlen & Hcell).
  assert (length (filled_cells b) = C.moveCount c) as Hfilled.
  { unfold C.moveCount.
    rewrite <- (length_map position (C.current_moves c)).
    apply Permutation_length, NoDup_Permutation; [| done |].
    - unfold filled_cells. apply NoDup_filter, NoDup_cell_indices.
    - intros [i j]. unfold filled_cells. rewrite list_elem_of_filter.
      rewrite cell_indices_spec. split.
      + intros [Hf [Hi Hj]]. by apply (is_filled_spec b _ i j (Hcell i j Hi)).
      + intros Hin.
        assert (i < 3 ∧ j < 3) as [Hi Hj].
        { apply list_elem_of_fmap in Hin as (m & Hm & Hin).
          rewrite Forall_forall in Hwf. destruct (Hwf m Hin) as [Hr Hc].
          unfold position in Hm. inversion Hm; subst.
          unfold valid_position in *. lia. }
        split; [| done].
        by apply (is_filled_spec b _ i j (Hcell i j Hi)). }
  pose proof (cells_partition b) as Hpart.
  exists b. split; [done |]. split.
  { by apply (replay_shape (C.current_moves c) C.empty_board b
                empty_board_shape Hwf). }
  repeat split.
  - intros m Hin.
    rewrite Forall_forall in Hwf. destruct (Hwf m Hin) as [Hr Hc].
    rewrite Hcell by exact Hr. by rewrite last_piece_at_distinct.
  - intros i j Hi Hj Hnot. rewrite Hcell by done.
    by apply last_piece_at_None in Hnot as ->.
  - done.
  - lia.
  - lia.
Qed.

(** C5: for any history of valid moves, repeated cells included, the
    board getter returns a board, and each of its nine cells holds the
    piece of the last move of the history that targets it (and is empty
    when no move does). *)
Theorem board_last_move_wins (c : C.t) :
  Forall valid_move (C.current_moves c) →
  ∃ b, C.board c = inr b ∧
       ∀ i j, i < 3 → j < 3 →
              C.cell b i j = inr (last_piece_at (C.current_moves c) i j).
Proof.
  intros Hwf. destruct (board_spec c Hwf) as (b & Hb & _ & Hcell).
  exists b. split; [done |]. intros i j Hi _. by apply Hcell.
Qed.

Lemma board_last_move_wins_witness :
  ∃ b, C.board (sample_controller IN_PROGRESS
                  [mkMove Piece.X 1 1; mkMove Piece.O 0 2; mkMove Piece.O 1 1]
                  None alice) = inr b ∧
       C.cell b 1 1 = inr (Some Piece.O) ∧ C.cell b 0 2 = inr (Some Piece.O) ∧
       C.cell b 0 0 = inr None.
Proof.
  destruct (board_last_move_wins
              (sample_controller IN_PROGRESS
                 [mkMove Piece.X 1 1; mkMove Piece.O 0 2; mkMove Piece.O 1 1]
                 None alice)) as (b & Hb & Hcell).
  - repeat constructor.
  - exists b. split; [exact Hb |].
    rewrite !Hcell by lia. by vm_compute.
Defined.

Lemma board_of_distinct_moves_witness :
  ∃ b, C.board (sample_controller IN_PROGRESS
                  [mkMove Piece.X 1 1; mkMove Piece.O 0 2] None alice) = inr b ∧
       three_by_three b ∧
       C.cell b 1 1 = inr (Some Piece.X) ∧ C.cell b 0 2 = inr (Some Piece.O) ∧
       length (filled_cells b) = 2 ∧ length (empty_cells b) = 7.
Proof.
  destruct (board_of_distinct_moves
              (sample_controller IN_PROGRESS
                 [mkMove Piece.X 1 1; mkMove Piece.O 0 2] None alice))
    as (b & Hb & Hshape & Hmoves & _ & Hfilled & Hempty & _).
  - repeat constructor.
  - apply (bool_decide_unpack (NoDup _)). by vm_compute.
  - exists b. split; [exact Hb |]. split; [exact Hshape |].
    split; [| split; [| split]].
    + apply (Hmoves (mkMove Piece.X 1 1)). repeat constructor.
    + apply (Hmoves (mkMove Piece.O 0 2)). repeat constructor.
    + exact Hfilled.
    + exact Hempty.
Defined.

(** ** Derived accessors *)

(** C9: with no game object in the model, [status] is
    [WAITING_TO_START], the board is the all-empty 3×3 grid, the move
    count is 0 and it is not our turn; none of the four throws. *)
Theorem no_game_defaults (c : C.t) :
  game (C._model c) = None →
  C.status c = WAITING_TO_START ∧
  C.board c = inr [ [None; None; None]; [None; None; None]; [None; None; None] ] ∧
  C.moveCount c = 0 ∧
  C.isOurTurn c = false.
Proof.
  intros Hgame.
  unfold C.status, C.board, C.moveCount, C.isOurTurn, C.current_moves,
    C.gameState.
  by rewrite Hgame.
Qed.

Lemma no_game_defaults_witness :
  C.status idle_controller = WAITING_TO_START ∧
  C.board idle_controller =
    inr [ [None; None; None]; [None; None; None]; [None; None; None] ] ∧
  C.moveCount idle_controller = 0 ∧
  C.isOurTurn idle_controller = false.
Proof. apply (no_game_defaults idle_controller). reflexivity. Defined.

Lemma whoseTurn_loop_even (n : nat) (s : TicTacToeGameState)
    (ps : list PlayerController) :
  Nat.even n = true →
  C.whoseTurn_loop n s ps =
  if truthy (state_x s) then find_player (id_is (state_x s)) ps else None.
Proof.
  intros Heven.
  assert (n mod 2 = 0) as Hmod.
  { apply Nat.even_spec in Heven as [k ->]. by rewrite Nat.mul_comm, Nat.Div0.mod_mul. }
  induction ps as [| p ps IH]; cbn [C.whoseTurn_loop find_player].
  - by destruct (truthy _).
  - rewrite Hmod, IH. cbn [Nat.eqb negb andb].
    destruct (truthy (state_x s)); [| done].
    by destruct (id_is (state_x s) p).
Qed.

Lemma whoseTurn_loop_odd (n : nat) (s : TicTacToeGameState)
    (ps : list PlayerController) :
  Nat.even n = false →
  C.whoseTurn_loop n s ps =
  if truthy (state_o s) then find_player (id_is (state_o s)) ps else None.
Proof.
  intros Hodd.
  assert (n mod 2 = 1) as Hmod.
  { rewrite <- Nat.negb_odd in Hodd. apply negb_false_iff in Hodd.
    apply Nat.odd_spec in Hodd as [k ->].
    rewrite Nat.add_comm, Nat.mul_comm, Nat.Div0.mod_add. done. }
  induction ps as [| p ps IH]; cbn [C.whoseTurn_loop find_player].
  - by destruct (truthy _).
  - rewrite Hmod, IH. cbn [Nat.eqb negb andb].
    destruct (truthy (state_o s)); [| done].
    by destruct (id_is (state_o s) p).
Qed.

(** [whoseTurn] unfolded: the loop amounts to the search of the [x] or
    [o] getter, behind the truthiness test of the seat's identifier. *)
Lemma whoseTurn_by_parity (c : C.t) :
  C.whoseTurn c =
  if decide (C.status c = IN_PROGRESS) then
    if Nat.even (C.moveCount c)
    then (if truthy (C.seat_x c) then C.x c else None)
    else (if truthy (C.seat_o c) then C.o c else None)
  else None.
Proof.
  unfold C.whoseTurn, C.status, C.x, C.o, C.seat_x, C.seat_o.
  destruct (C.gameState c) as [s |] eqn:Hs; [| done].
  destruct (decide (state_status s = IN_PROGRESS)); [| done].
  destruct (Nat.even (C.moveCount c)) eqn:Hparity.
  - by apply whoseTurn_loop_even.
  - by apply whoseTurn_loop_odd.
Qed.

(** Player identifiers are generated and never empty. Were a seat
    recorded under the empty identifier and a player to carry it, the
    [x] getter would find that player while [whoseTurn] would not. *)
Lemma whoseTurn_not_seat_holder :
  ¬ (∀ c : C.t,
       C.status c = IN_PROGRESS →
       C.whoseTurn c = if Nat.even (C.moveCount c) then C.x c else C.o c).
Proof.
  intros H. specialize (H empty_seat_id_controller eq_refl).
  vm_compute in H. discriminate H.
Qed.

(** C10: when the viewer is a player of the game, [gamePiece] does not
    throw; it is ['X'] exactly when the viewer is the object the [x]
    getter returns, and ['O'] otherwise, whatever the [o] getter
    returns. *)
Theorem gamePiece_of_player (c : C.t) :
  C.isPlayer c = true →
  (∃ piece, C.gamePiece c = inr piece) ∧
  (C.gamePiece c = inr Piece.X ↔
   same_player (Some (ourPlayer (C._townController c))) (C.x c) = true) ∧
  (same_player (Some (ourPlayer (C._townController c))) (C.x c) = false →
   C.gamePiece c = inr Piece.O).
Proof.
  intros Hplayer. unfold C.gamePiece. rewrite Hplayer. cbn [negb].
  destruct (same_player (Some (ourPlayer (C._townController c))) (C.x c)).
  - split; [by eexists |]. by split.
  - split; [by eexists |]. split; [| done]. split; [| done].
    intros H. by inversion H.
Qed.

Lemma gamePiece_of_player_witness :
  C.isPlayer unseated_player_controller = true ∧
  same_player (Some carol) (C.x unseated_player_controller) = false ∧
  same_player (Some carol) (C.o unseated_player_controller) = false ∧
  C.gamePiece unseated_player_controller = inr Piece.O.
Proof.
  split; [reflexivity |]. split; [reflexivity |]. split; [reflexivity |].
  exact (proj2 (proj2 (gamePiece_of_player unseated_player_controller eq_refl))
               eq_refl).
Defined.

(** ** Move requests *)

Lemma makeMove_no_session reply (c : C.t) (row col : nat) :
  truthy (C._instanceID c) = false →
  C.makeMove reply c row col = (inl (Error NO_GAME_IN_PROGRESS_ERROR), []).
Proof.
  intros Hid. unfold C.makeMove. cbn [method_value_truthy negb].
  destruct (C._instanceID c) as [i |]; [| done]. by rewrite Hid.
Qed.

(** C1 at a failing input: the game is over, the session identifier
    of the finished game is still held and the viewer is seated as X;
    the call does not fail and the move command reaches the
    transport. *)
Theorem makeMove_after_game_over :
  C.status (sample_controller OVER [] (Some "game") alice) = OVER ∧
  C.isActive (sample_controller OVER [] (Some "game") alice) = false ∧
  C.makeMove acknowledge (sample_controller OVER [] (Some "game") alice) 0 0 =
    (inr tt,
     [("area", {| cmd_gameID := "game"; cmd_move := mkMove Piece.X 0 0 |})]).
Proof. by vm_compute. Qed.

(** C8: when the game is in progress and a session identifier is held,
    a viewer who is not a player of the game gets
    [PLAYER_NOT_IN_GAME_ERROR] and nothing is handed to the
    transport. *)
Theorem makeMove_not_in_game reply (c : C.t) (row col : nat) :
  C.status c = IN_PROGRESS →
  truthy (C._instanceID c) = true →
  C.isPlayer c = false →
  C.makeMove reply c row col = (inl (Error PLAYER_NOT_IN_GAME_ERROR), []).
Proof.
  intros _ Hid Hplayer. unfold C.makeMove. cbn [method_value_truthy negb].
  destruct (C._instanceID c) as [i |]; [| done].
  rewrite Hid. cbn [negb]. unfold C.gamePiece. by rewrite Hplayer.
Qed.

Lemma makeMove_not_in_game_witness :
  C.makeMove acknowledge (sample_controller IN_PROGRESS [] (Some "game") carol)
    1 2 = (inl (Error PLAYER_NOT_IN_GAME_ERROR), []).
Proof.
  apply (makeMove_not_in_game acknowledge
           (sample_controller IN_PROGRESS [] (Some "game") carol) 1 2);
    reflexivity.
Defined.

(** ** Applying a snapshot *)

Lemma cell_in_range (b : Board) (i j : nat) :
  length b = 3 → i < 3 → ∃ v, C.cell b i j = inr v.
Proof.
  intros Hlen Hi. unfold C.cell.
  destruct (b !! i) as [r |] eqn:Hr; [by eexists |].
  apply lookup_ge_None in Hr. lia.
Qed.

Lemma areBoardEqual_loop_spec (b1 b2 : Board) (ijs : list (nat * nat)) :
  length b1 = 3 → length b2 = 3 →
  (∀ i j, (i, j) ∈ ijs → i < 3) →
  ∃ equal, C.areBoardEqual_loop b1 b2 ijs = inr equal ∧
           (equal = true ↔ ∀ i j, (i, j) ∈ ijs → C.cell b1 i j = C.cell b2 i j).
Proof.
  intros Hlen1 Hlen2. induction ijs as [| [i j] ijs IH]; intros Hrange.
  - exists true. split; [done |]. split; [| done].
    intros _ i j Hin. by apply elem_of_nil in Hin.
  - assert (i < 3) as Hi by (apply (Hrange i j); by left).
    destruct (cell_in_range b1 i j Hlen1 Hi) as [v1 Hv1].
    destruct (cell_in_range b2 i j Hlen2 Hi) as [v2 Hv2].
    destruct IH as (equal & Hloop & Hequal).
    { intros i' j' Hin. apply (Hrange i' j'). by right. }
    cbn [C.areBoardEqual_loop]. rewrite Hv1, Hv2.
    cbn [mbind Res_bind].
    destruct (decide (v1 ≠ v2)) as [Hne | Heq].
    + exists false. split; [done |]. split; [done |].
      intros Hall. specialize (Hall i j). rewrite Hv1, Hv2 in Hall.
      exfalso. apply Hne. assert (inr v1 = inr v2 :> Res _) as H by (apply Hall; by left).
      by inversion H.
    + apply dec_stable in Heq as ->.
      exists equal. split; [done |]. rewrite Hequal. split.
      * intros Hall i' j' Hin. apply elem_of_cons in Hin as [Hin | Hin].
        -- inversion Hin; subst. by rewrite Hv1, Hv2.
        -- by apply Hall.
      * intros Hall i' j' Hin. apply Hall. by right.
Qed.

Lemma areBoardEqual_spec (b1 b2 : Board) :
  length b1 = 3 → length b2 = 3 →
  ∃ equal, C._areBoardEqual b1 b2 = inr equal ∧
           (equal = false ↔ boards_differ b1 b2).
Proof.
  intros Hlen1 Hlen2.
  destruct (areBoardEqual_loop_spec b1 b2 C.cell_indices Hlen1 Hlen2)
    as (equal & Hloop & Hequal).
  { intros i j Hin. by apply cell_indices_spec in Hin as [Hi _]. }
  exists equal. split; [done |]. unfold boards_differ. split.
  - intros ->.
    destruct (decide (Exists (λ ij, C.cell b1 ij.1 ij.2 ≠ C.cell b2 ij.1 ij.2)
                             C.cell_indices)) as [Hex | Hnex].
    + apply Exists_exists in Hex as ([i j] & Hin & Hne).
      apply cell_indices_spec in Hin as [Hi Hj]. by exists i, j.
    + exfalso. assert (false = true) as H; [| done].
      apply Hequal. intros i j Hin.
      destruct (decide (C.cell b1 i j = C.cell b2 i j)) as [| Hne]; [done |].
      exfalso. apply Hnex, Exists_exists. by exists (i, j).
  - intros (i & j & Hi & Hj & Hne).
    destruct equal; [| done]. exfalso. apply Hne.
    apply Hequal; [done |]. by apply cell_indices_spec.
Qed.

(** What [_updateFrom] returns on well-typed snapshots: the controller
    the inherited method leaves, and the inherited events followed by
    at most one [boardChanged] and at most one [turnChanged]. *)
Lemma updateFrom_spec super (c : C.t) (newModel : GameArea) :
  (∀ c0 m, C._model (super c0 m).1 = m) →
  wf_model (C._model c) → wf_model newModel →
  ∃ oldBoard newBoard changed,
    C.board c = inr oldBoard ∧
    C.board (super c newModel).1 = inr newBoard ∧
    (changed = true ↔ boards_differ oldBoard newBoard) ∧
    C._updateFrom super c newModel =
      inr ((super c newModel).1,
           map C.inherited (super c newModel).2
           ++ (if changed then [C.boardChanged newBoard] else [])
           ++ (if negb (eqb (C.isOurTurn c) (C.isOurTurn (super c newModel).1))
               then [C.turnChanged (C.isOurTurn (super c newModel).1)]
               else [])).
Proof.
  intros Hsuper Hold Hnew.
  destruct (board_spec c (wf_model_moves c Hold)) as (oldBoard & Hob & Hlo & _).
  assert (wf_model (C._model (super c newModel).1)) as Hnew'
    by by rewrite Hsuper.
  destruct (board_spec _ (wf_model_moves _ Hnew')) as (newBoard & Hnb & Hln & _).
  destruct (areBoardEqual_spec oldBoard newBoard Hlo Hln)
    as (equal & Heq & Hdiffer).
  exists oldBoard, newBoard, (negb equal).
  split; [done |]. split; [done |]. split.
  { rewrite negb_true_iff. exact Hdiffer. }
  unfold C._updateFrom. rewrite Hob. cbn [mbind Res_bind].
  destruct (super c newModel) as [c' inherited_events]. cbn [fst snd] in *.
  rewrite Hnb. cbn [mbind Res_bind]. rewrite Heq. cbn [mbind Res_bind].
  by destruct equal.
Qed.

Lemma inherited_not_boardChanged (b : Board) (l : list C.GameEvent) :
  C.boardChanged b ∉ map C.inherited l.
Proof. intros H. by apply list_elem_of_fmap in H as (e & He & _). Qed.

Lemma inherited_not_turnChanged (v : bool) (l : list C.GameEvent) :
  C.turnChanged v ∉ map C.inherited l.
Proof. intros H. by apply list_elem_of_fmap in H as (e & He & _). Qed.

(** C2: applying a snapshot emits [boardChanged] if and only if one of
    the nine cells of the board derived after the update differs from
    the same cell of the board derived before it; the event carries the
    new board, and no [boardChanged] is emitted when the two boards
    agree on all nine cells, whatever else the snapshot changes. *)
Theorem updateFrom_boardChanged super (c : C.t) (newModel : GameArea) :
  (∀ c0 m, C._model (super c0 m).1 = m) →
  wf_model (C._model c) → wf_model newModel →
  ∃ oldBoard newBoard c' events,
    C.board c = inr oldBoard ∧
    C._updateFrom super c newModel = inr (c', events) ∧
    C._model c' = newModel ∧
    C.board c' = inr newBoard ∧
    ((∃ b, C.boardChanged b ∈ events) ↔ boards_differ oldBoard newBoard) ∧
    (∀ b, C.boardChanged b ∈ events → b = newBoard) ∧
    ((∀ i j, i < 3 → j < 3 → C.cell oldBoard i j = C.cell newBoard i j) →
     ∀ b, C.boardChanged b ∉ events).
Proof.
  intros Hsuper Hold Hnew.
  destruct (updateFrom_spec super c newModel Hsuper Hold Hnew)
    as (oldBoard & newBoard & changed & Hob & Hnb & Hchanged & Hupd).
  eexists oldBoard, newBoard, _, _.
  split; [done |]. split; [exact Hupd |]. split; [by rewrite Hsuper |].
  split; [done |].
  assert (∀ b, C.boardChanged b ∈
               map C.inherited (super c newModel).2
               ++ (if changed then [C.boardChanged newBoard] else [])
               ++ (if negb (eqb (C.isOurTurn c) (C.isOurTurn (super c newModel).1))
                   then [C.turnChanged (C.isOurTurn (super c newModel).1)]
                   else [])
               ↔ changed = true ∧ b = newBoard) as Hin.
  { intros b. rewrite !elem_of_app. split.
    - intros [H | [H | H]].
      + by apply inherited_not_boardChanged in H.
      + destruct changed; [| by apply elem_of_nil in H].
        apply list_elem_of_singleton in H. by inversion H.
      + destruct (negb _); [| by apply elem_of_nil in H].
        apply list_elem_of_singleton in H. discriminate H.
    - intros [-> ->]. right; left. by apply list_elem_of_singleton. }
  split; [| split].
  - rewrite <- Hchanged. split.
    + intros [b Hb]. by apply Hin in Hb as [? _].
    + intros ->. exists newBoard. by apply Hin.
  - intros b Hb. by apply Hin in Hb as [_ ?].
  - intros Hsame b Hb. apply Hin in Hb as [Hc _].
    apply Hchanged in Hc as (i & j & Hi & Hj & Hne). by apply Hne, Hsame.
Qed.

Lemma updateFrom_boardChanged_witness :
  ∃ oldBoard newBoard c' events,
    C.board (sample_controller IN_PROGRESS [] (Some "game") alice)
      = inr oldBoard ∧
    C._updateFrom base_updateFrom
      (sample_controller IN_PROGRESS [] (Some "game") alice)
      (sample_model IN_PROGRESS [mkMove Piece.X 0 1]) = inr (c', events) ∧
    C._model c' = sample_model IN_PROGRESS [mkMove Piece.X 0 1] ∧
    C.board c' = inr newBoard ∧
    ((∃ b, C.boardChanged b ∈ events) ↔ boards_differ oldBoard newBoard) ∧
    (∀ b, C.boardChanged b ∈ events → b = newBoard) ∧
    ((∀ i j, i < 3 → j < 3 → C.cell oldBoard i j = C.cell newBoard i j) →
     ∀ b, C.boardChanged b ∉ events).
Proof.
  apply (updateFrom_boardChanged base_updateFrom
           (sample_controller IN_PROGRESS [] (Some "game") alice)
           (sample_model IN_PROGRESS [mkMove Piece.X 0 1])).
  - reflexivity.
  - apply Forall_nil_2.
  - repeat constructor.
Defined.

(** C3: applying a snapshot emits [turnChanged] if and only if
    [isOurTurn] after the update differs from [isOurTurn] before it,
    and the event carries the value after the update. *)
Theorem updateFrom_turnChanged super (c : C.t) (newModel : GameArea) :
  (∀ c0 m, C._model (super c0 m).1 = m) →
  wf_model (C._model c) → wf_model newModel →
  ∃ c' events,
    C._updateFrom super c newModel = inr (c', events) ∧
    C._model c' = newModel ∧
    ((∃ v, C.turnChanged v ∈ events) ↔ C.isOurTurn c' ≠ C.isOurTurn c) ∧
    (∀ v, C.turnChanged v ∈ events → v = C.isOurTurn c').
Proof.
  intros Hsuper Hold Hnew.
  destruct (updateFrom_spec super c newModel Hsuper Hold Hnew)
    as (oldBoard & newBoard & changed & Hob & Hnb & Hchanged & Hupd).
  eexists _, _.
  split; [exact Hupd |]. split; [by rewrite Hsuper |].
  set (c' := (super c newModel).1).
  assert (∀ v, C.turnChanged v ∈
               map C.inherited (super c newModel).2
               ++ (if changed then [C.boardChanged newBoard] else [])
               ++ (if negb (eqb (C.isOurTurn c) (C.isOurTurn c'))
                   then [C.turnChanged (C.isOurTurn c')]
                   else [])
               ↔ C.isOurTurn c' ≠ C.isOurTurn c ∧ v = C.isOurTurn c') as Hin.
  { intros v. rewrite !elem_of_app. split.
    - intros [H | [H | H]].
      + by apply inherited_not_turnChanged in H.
      + destruct changed; [| by apply elem_of_nil in H].
        apply list_elem_of_singleton in H. discriminate H.
      + destruct (eqb (C.isOurTurn c) (C.isOurTurn c')) eqn:Heqb;
          cbn [negb] in H; [by apply elem_of_nil in H |].
        apply list_elem_of_singleton in H. inversion H; subst.
        split; [| done]. apply eqb_false_iff in Heqb. congruence.
    - intros [Hne ->]. right; right.
      destruct (eqb (C.isOurTurn c) (C.isOurTurn c')) eqn:Heqb; cbn [negb].
      + apply eqb_prop in Heqb. congruence.
      + by apply list_elem_of_singleton. }
  split.
  - split.
    + intros [v Hv]. by apply Hin in Hv as [? _].
    + intros Hne. exists (C.isOurTurn c'). by apply Hin.
  - intros v Hv. by apply Hin in Hv as [_ ?].
Qed.

Lemma updateFrom_turnChanged_witness :
  ∃ c' events,
    C._updateFrom base_updateFrom
      (sample_controller IN_PROGRESS [] (Some "game") alice)
      (sample_model IN_PROGRESS [mkMove Piece.X 0 1]) = inr (c', events) ∧
    C._model c' = sample_model IN_PROGRESS [mkMove Piece.X 0 1] ∧
    ((∃ v, C.turnChanged v ∈ events) ↔
     C.isOurTurn c' ≠
     C.isOurTurn (sample_controller IN_PROGRESS [] (Some "game") alice)) ∧
    (∀ v, C.turnChanged v ∈ events → v = C.isOurTurn c').
Proof.
  apply (updateFrom_turnChanged base_updateFrom
           (sample_controller IN_PROGRESS [] (Some "game") alice)
           (sample_model IN_PROGRESS [mkMove Piece.X 0 1])).
  - reflexivity.
  - apply Forall_nil_2.
  - repeat constructor.
Defined.

(** A snapshot that ends the game without adding a move: Bob (O) was
    to play after the first move; the board is unchanged, so only the
    inherited event and [turnChanged false] are emitted. *)
Lemma updateFrom_game_over_same_board :
  ∃ c', C._updateFrom base_updateFrom
          (sample_controller IN_PROGRESS [mkMove Piece.X 0 1] (Some "game") bob)
          (sample_model OVER [mkMove Piece.X 0 1]) =
        inr (c', [C.inherited C.gameUpdated; C.turnChanged false]).
Proof. eexists. reflexivity. Qed.

(** The viewer is seated as X in a fresh game in progress: it is the
    viewer's turn, and the snapshot that echoes the viewer's move
    emits [turnChanged false] once, after [boardChanged]. *)
Lemma updateFrom_after_own_move :
  C.isOurTurn (sample_controller IN_PROGRESS [] (Some "game") alice) = true ∧
  ∃ c', C._updateFrom base_updateFrom
          (sample_controller IN_PROGRESS [] (Some "game") alice)
          (sample_model IN_PROGRESS [mkMove Piece.X 0 1]) =
        inr (c', [C.inherited C.gameUpdated;
                  C.boardChanged [ [None; Some Piece.X; None];
                                   [None; None; None]; [None; None; None] ];
                  C.turnChanged false]).
Proof. split; [reflexivity |]. eexists. reflexivity. Qed.

(** ** The statistics map *)

Lemma map_get_set (m : L.StatsMap) (k k' : string) (v : L.PlayerStats) :
  L.map_get (L.map_set m k v) k' =
  if decide (k' = k) then Some v else L.map_get m k'.
Proof.
  induction m as [| [k0 v0] m IH]; simpl.
  - destruct (String.eqb_spec k' k); by case_decide.
  - destruct (String.eqb_spec k k0) as [-> | Hk]; simpl.
    + destruct (String.eqb_spec k' k0); by case_decide.
    + rewrite IH. destruct (String.eqb_spec k' k0) as [-> | Hk'];
        case_decide; congruence.
Qed.

Lemma map_set_keys (m : L.StatsMap) (k : string) (v : L.PlayerStats) :
  map fst (L.map_set m k v) =
  if decide (k ∈ map fst m) then map fst m else map fst m ++ [k].
Proof.
  induction m as [| [k0 v0] m IH]; simpl.
  - done.
  - destruct (String.eqb_spec k k0) as [-> | Hk]; simpl.
    + rewrite decide_True; [done | by left].
    + rewrite IH. destruct (decide (k ∈ map fst m)) as [Hin | Hin].
      * rewrite decide_True; [done | by right].
      * rewrite decide_False; [done |].
        rewrite not_elem_of_cons. done.
Qed.

Lemma map_set_NoDup (m : L.StatsMap) (k : string) (v : L.PlayerStats) :
  NoDup (map fst m) → NoDup (map fst (L.map_set m k v)).
Proof.
  intros Hnd. rewrite map_set_keys. case_decide; [done |].
  apply NoDup_app. split; [done |]. split.
  - intros k' Hin Hk'. apply list_elem_of_singleton in Hk'. by subst.
  - apply NoDup_singleton.
Qed.

Lemma map_get_None (m : L.StatsMap) (k : string) :
  L.map_get m k = None ↔ k ∉ map fst m.
Proof.
  induction m as [| [k0 v0] m IH]; simpl.
  - split; [intros _; apply not_elem_of_nil | done].
  - rewrite not_elem_of_cons.
    destruct (String.eqb_spec k k0) as [-> | Hk].
    + split; [done | by intros [? _]].
    + rewrite IH. by split; [| intros [_ ?]].
Qed.

Lemma map_get_elem_of (m : L.StatsMap) (k : string) (v : L.PlayerStats) :
  NoDup (map fst m) → (k, v) ∈ m → L.map_get m k = Some v.
Proof.
  induction m as [| [k0 v0] m IH]; simpl; intros Hnd Hin.
  - by apply elem_of_nil in Hin.
  - apply NoDup_cons in Hnd as [Hfresh Hnd].
    apply elem_of_cons in Hin as [Heq | Hin].
    + inversion Heq; subst. by rewrite String.eqb_refl.
    + destruct (String.eqb_spec k k0) as [-> | Hk]; [| by apply IH].
      exfalso. apply Hfresh. apply list_elem_of_fmap. by exists (k0, v).
Qed.

(** ** One result *)

Lemma score_of_Some (sc : list (string * Z)) (p : string) :
  p ∈ map fst sc → is_Some (L.score_of sc p).
Proof.
  induction sc as [| [k v] sc IH]; simpl; intros Hin.
  - by apply elem_of_nil in Hin.
  - destruct (String.eqb_spec p k) as [-> | Hk]; [by eexists |].
    apply elem_of_cons in Hin as [? | Hin]; [done | by apply IH].
Qed.

Lemma score_of_None (sc : list (string * Z)) (p : string) :
  p ∉ map fst sc → L.score_of sc p = None.
Proof.
  induction sc as [| [k v] sc IH]; simpl; intros Hin; [done |].
  apply not_elem_of_cons in Hin as [Hk Hin].
  destruct (String.eqb_spec p k); [done | by apply IH].
Qed.

Lemma absent_player_counts (r : GameResult) (p : string) :
  p ∉ players_of r → wins_in r p = 0 ∧ losses_in r p = 0 ∧ ties_in r p = 0.
Proof.
  intros Hp. apply score_of_None in Hp.
  unfold wins_in, losses_in, ties_in.
  assert (∀ P : string → Prop, ∀ (D : ∀ q, Decision (P q)) l,
            (∀ q, ¬ P q) → length (filter P l) = 0) as Hnone.
  { intros P D l HP. induction l as [| q l IH]; [done |].
    rewrite filter_cons. by destruct (decide (P q)) as [HPq%HP |]. }
  repeat split; apply Hnone; intros q; unfold beats, ties_with; rewrite Hp;
    destruct (L.score_of (scores r) q); simpl; by intros [].
Qed.

Lemma length_filter_cons_bool {A} (f : A → bool) (x : A) (l : list A) :
  length (filter (λ y, f y) (x :: l)) =
  (if f x then 1 else 0) + length (filter (λ y, f y) l).
Proof. rewrite filter_cons. by destruct (f x). Qed.

(** One comparison adds the outcome of the pair to the counters. *)
Lemma compare_with_spec (r : GameResult) (p q : string) (s : L.PlayerStats) :
  p ∈ players_of r → q ∈ players_of r →
  L.compare_with (scores r) p (L.score_of (scores r) p) s q =
  {| L.name := L.name s;
     L.wins := L.wins s + (if beats r p q then 1 else 0);
     L.losses := L.losses s + (if beats r q p then 1 else 0);
     L.ties := L.ties s + (if ties_with r p q then 1 else 0) |}.
Proof.
  intros Hp Hq.
  destruct (score_of_Some _ _ Hp) as [a Ha].
  destruct (score_of_Some _ _ Hq) as [b Hb].
  unfold L.compare_with, beats, ties_with, L.js_lt, L.js_gt.
  rewrite Ha, Hb.
  destruct (String.eqb_spec p q) as [-> | Hpq]; cbn [negb].
  - rewrite (bool_decide_eq_false_2 (q ≠ q)) by (by intros H).
    destruct s. cbn. f_equal; lia.
  - rewrite (bool_decide_eq_true_2 (p ≠ q)) by done.
    rewrite (bool_decide_eq_true_2 (q ≠ p)) by done.
    cbn [andb].
    destruct (Z.ltb_spec b a) as [Hlt | Hge].
    + rewrite (bool_decide_eq_true_2 (b < a)%Z) by done.
      rewrite (bool_decide_eq_false_2 (a < b)%Z) by lia.
      rewrite (bool_decide_eq_false_2 (a = b)) by lia.
      f_equal; lia.
    + destruct (Z.ltb_spec a b) as [Hlt | Hge'].
      * rewrite (bool_decide_eq_false_2 (b < a)%Z) by lia.
        rewrite (bool_decide_eq_true_2 (a < b)%Z) by done.
        rewrite (bool_decide_eq_false_2 (a = b)) by lia.
        f_equal; lia.
      * rewrite (bool_decide_eq_false_2 (b < a)%Z) by lia.
        rewrite (bool_decide_eq_false_2 (a < b)%Z) by lia.
        rewrite (bool_decide_eq_true_2 (a = b)) by lia.
        f_equal; lia.
Qed.

(** The innermost loop adds to the counters of [p] its pairs with the
    players it visits. *)
Lemma compare_fold (r : GameResult) (p : string) (qs : list string)
    (s : L.PlayerStats) :
  p ∈ players_of r → (∀ q, q ∈ qs → q ∈ players_of r) →
  foldl (L.compare_with (scores r) p (L.score_of (scores r) p)) s qs =
  {| L.name := L.name s;
     L.wins := L.wins s + length (filter (λ q, beats r p q) qs);
     L.losses := L.losses s + length (filter (λ q, beats r q p) qs);
     L.ties := L.ties s + length (filter (λ q, ties_with r p q) qs) |}.
Proof.
  intros Hp. revert s. induction qs as [| q qs IH]; intros s Hqs.
  - destruct s. cbn. f_equal; lia.
  - cbn [foldl]. rewrite IH by (intros q' Hq'; apply Hqs; by right).
    rewrite compare_with_spec by (done || apply Hqs; by left).
    rewrite !length_filter_cons_bool.
    cbn [L.name L.wins L.losses L.ties]. f_equal; lia.
Qed.

Lemma tally_player_get (r : GameResult) (m : L.StatsMap) (p k : string) :
  p ∈ players_of r →
  L.map_get (L.tally_player (scores r) (players_of r) m p) k =
  if decide (k = p) then Some (add_result r p (row_or_new m p))
  else L.map_get m k.
Proof.
  intros Hp. unfold L.tally_player. rewrite map_get_set.
  case_decide; [| done]. by rewrite compare_fold.
Qed.

Lemma tally_player_NoDup (sc : list (string * Z)) (players : list string)
    (m : L.StatsMap) (p : string) :
  NoDup (map fst m) → NoDup (map fst (L.tally_player sc players m p)).
Proof. apply map_set_NoDup. Qed.

(** The loop over the players of one result touches the row of each
    of them once. *)
Lemma tally_players_get (r : GameResult) (ps : list string) (m : L.StatsMap)
    (k : string) :
  NoDup ps → (∀ p, p ∈ ps → p ∈ players_of r) →
  L.map_get (foldl (L.tally_player (scores r) (players_of r)) m ps) k =
  if decide (k ∈ ps) then Some (add_result r k (row_or_new m k))
  else L.map_get m k.
Proof.
  revert m. induction ps as [| p ps IH]; intros m Hnd Hps.
  - cbn [foldl]. rewrite decide_False; [done | apply not_elem_of_nil].
  - apply NoDup_cons in Hnd as [Hfresh Hnd]. cbn [foldl].
    rewrite IH by (done || intros p' Hp'; apply Hps; by right).
    assert (p ∈ players_of r) as Hp by (apply Hps; by left).
    destruct (decide (k ∈ ps)) as [Hk | Hk].
    + rewrite decide_True by (by right).
      assert (k ≠ p) as Hne by (by intros ->).
      unfold row_or_new. rewrite tally_player_get by done.
      by rewrite decide_False.
    + rewrite tally_player_get by done.
      destruct (decide (k = p)) as [-> | Hne].
      * rewrite decide_True; [done | by left].
      * rewrite decide_False; [done |]. by rewrite not_elem_of_cons.
Qed.

Lemma tally_players_NoDup (sc : list (string * Z)) (players ps : list string)
    (m : L.StatsMap) :
  NoDup (map fst m) →
  NoDup (map fst (foldl (L.tally_player sc players) m ps)).
Proof.
  revert m. induction ps as [| p ps IH]; intros m Hnd; [done |].
  cbn [foldl]. by apply IH, tally_player_NoDup.
Qed.

(** ** All results *)

Lemma encountered_snoc (results : list GameResult) (r : GameResult) (k : string) :
  k ∈ encountered (results ++ [r]) ↔ k ∈ encountered results ∨ k ∈ players_of r.
Proof.
  unfold encountered. rewrite map_app, concat_app, elem_of_app.
  cbn [map concat]. by rewrite app_nil_r.
Qed.

Lemma expected_row_absent (results : list GameResult) (k : string) :
  k ∉ encountered results →
  expected_row results k =
  {| L.name := k; L.wins := 0; L.losses := 0; L.ties := 0 |}.
Proof.
  induction results as [| r results IH]; intros Hk; [reflexivity |].
  unfold encountered in Hk. cbn [map concat] in Hk.
  apply not_elem_of_app in Hk as [Hr Hk].
  specialize (IH Hk).
  pose proof (f_equal L.wins IH) as Hw.
  pose proof (f_equal L.losses IH) as Hl.
  pose proof (f_equal L.ties IH) as Ht.
  cbn [expected_row L.wins L.losses L.ties] in Hw, Hl, Ht.
  destruct (absent_player_counts r k Hr) as (Hw0 & Hl0 & Ht0).
  unfold expected_row. cbn [sum_list_with].
  by rewrite Hw, Hl, Ht, Hw0, Hl0, Ht0.
Qed.

Lemma expected_row_snoc (results : list GameResult) (r : GameResult) (k : string) :
  expected_row (results ++ [r]) k = add_result r k (expected_row results k).
Proof.
  unfold expected_row, add_result. rewrite !sum_list_with_app.
  cbn [sum_list_with L.name L.wins L.losses L.ties]. f_equal; lia.
Qed.

Lemma add_result_absent (r : GameResult) (k : string) (s : L.PlayerStats) :
  k ∉ players_of r → add_result r k s = s.
Proof.
  intros Hk. destruct (absent_player_counts r k Hk) as (Hw & Hl & Ht).
  unfold add_result. rewrite Hw, Hl, Ht. destruct s. cbn. f_equal; lia.
Qed.

Lemma tallied_step (results : list GameResult) (r : GameResult) (m : L.StatsMap) :
  NoDup (players_of r) → tallied results m →
  tallied (results ++ [r]) (L.tally_result m r).
Proof.
  intros Hnd [Hkeys Hget]. split.
  - by apply tally_players_NoDup.
  - intros k. unfold L.tally_result. fold (players_of r).
    rewrite tally_players_get by done.
    rewrite expected_row_snoc.
    destruct (decide (k ∈ players_of r)) as [Hk | Hk].
    + rewrite decide_True by (apply encountered_snoc; by right).
      unfold row_or_new. rewrite Hget.
      destruct (decide (k ∈ encountered results)) as [| Hnew]; [done |].
      by rewrite expected_row_absent.
    + rewrite Hget, add_result_absent by done.
      destruct (decide (k ∈ encountered results)) as [Hold | Hnew].
      * rewrite decide_True; [done |]. apply encountered_snoc. by left.
      * rewrite decide_False; [done |]. rewrite encountered_snoc. tauto.
Qed.

Lemma tally_tallied (results : list GameResult) :
  Forall (λ r, NoDup (players_of r)) results →
  tallied results (L.tally results).
Proof.
  induction results as [| r results IH] using rev_ind; intros Hwf.
  - split; [apply NoDup_nil_2 |]. intros k. cbn.
    rewrite decide_False; [done | apply not_elem_of_nil].
  - apply Forall_app in Hwf as [Hwf Hr]. rewrite Forall_singleton in Hr.
    unfold L.tally. rewrite foldl_app. cbn [foldl].
    by apply tallied_step, IH.
Qed.

(** ** Sorting *)

Lemma insert_by_wins_perm (s : L.PlayerStats) (l : list L.PlayerStats) :
  L.insert_by_wins s l ≡ₚ s :: l.
Proof.
  induction l as [| s' l IH]; cbn [L.insert_by_wins]; [done |].
  case_decide; [done |]. rewrite IH. apply Permutation_swap.
Qed.

Lemma sort_by_wins_perm (l : list L.PlayerStats) : L.sort_by_wins l ≡ₚ l.
Proof.
  induction l as [| s l IH]; [done |].
  unfold L.sort_by_wins. cbn [foldr]. rewrite insert_by_wins_perm.
  by apply Permutation_skip.
Qed.

Lemma insert_by_wins_sorted (s : L.PlayerStats) (l : list L.PlayerStats) :
  StronglySorted more_wins l → StronglySorted more_wins (L.insert_by_wins s l).
Proof.
  induction 1 as [| s' l Hsorted IH Hall]; cbn [L.insert_by_wins].
  - repeat constructor.
  - case_decide as Hlt.
    + constructor; [by constructor |].
      constructor; [unfold more_wins; lia |].
      eapply Forall_impl; [exact Hall |].
      unfold more_wins. intros; lia.
    + constructor; [done |].
      rewrite insert_by_wins_perm. constructor; [unfold more_wins; lia | done].
Qed.

Lemma sort_by_wins_sorted (l : list L.PlayerStats) :
  StronglySorted more_wins (L.sort_by_wins l).
Proof.
  induction l as [| s l IH]; [constructor |].
  unfold L.sort_by_wins. cbn [foldr]. by apply insert_by_wins_sorted.
Qed.

(** ** The table *)

Lemma encountered_spec (results : list GameResult) (p : string) :
  p ∈ encountered results ↔ ∃ r, r ∈ results ∧ p ∈ players_of r.
Proof.
  induction results as [| r results IH].
  - split; [intros H; by apply elem_of_nil in H |].
    intros (r & Hr & _). by apply elem_of_nil in Hr.
  - unfold encountered. cbn [map concat]. rewrite elem_of_app.
    fold (encountered results). rewrite IH. split.
    + intros [Hp | (r' & Hr' & Hp)].
      * exists r. split; [by left | done].
      * exists r'. split; [by right | done].
    + intros (r' & Hr' & Hp). apply elem_of_cons in Hr' as [-> | Hr'].
      * by left.
      * right. by exists r'.
Qed.

Lemma tallied_entry (results : list GameResult) (m : L.StatsMap)
    (k : string) (s : L.PlayerStats) :
  tallied results m → (k, s) ∈ m →
  k ∈ encountered results ∧ s = expected_row results k.
Proof.
  intros [Hnd Hget] Hin.
  pose proof (map_get_elem_of m k s Hnd Hin) as Hs. rewrite Hget in Hs.
  case_decide; [| done]. split; [done |]. by inversion Hs.
Qed.

Lemma tallied_names (results : list GameResult) (m : L.StatsMap) :
  tallied results m → map L.name (map snd m) = map fst m.
Proof.
  intros Ht.
  assert (∀ k s, (k, s) ∈ m → L.name s = k) as Hname.
  { intros k s Hin. by destruct (tallied_entry results m k s Ht Hin) as [_ ->]. }
  clear Ht. induction m as [| [k s] m IH]; [done |].
  cbn [map fst snd]. f_equal.
  - apply Hname. by left.
  - apply IH. intros k' s' Hin. apply Hname. by right.
Qed.

(** C7: for results whose score objects have distinct keys, the table
    has one row per player encountered across the results; the row of
    a player counts, over all results, one win per opponent the player
    outscored (a loss for that opponent), one loss per opponent that
    outscored the player and one tie per opponent with an equal score;
    the rows come most wins first. For [[{A: 1, B: 0}]] the rows are A
    with 1 win, 0 losses, 0 ties, then B with 0 wins, 1 loss, 0
    ties. *)
Theorem leaderboard_tally (results : list GameResult) :
  Forall (λ r, NoDup (players_of r)) results →
  NoDup (map L.name (L.Leaderboard results)) ∧
  (∀ p, p ∈ map L.name (L.Leaderboard results) ↔
        ∃ r, r ∈ results ∧ p ∈ players_of r) ∧
  (∀ s, s ∈ L.Leaderboard results → s = expected_row results (L.name s)) ∧
  StronglySorted more_wins (L.Leaderboard results) ∧
  L.Leaderboard one_win =
    [ {| L.name := "A"; L.wins := 1; L.losses := 0; L.ties := 0 |};
      {| L.name := "B"; L.wins := 0; L.losses := 1; L.ties := 0 |} ].
Proof.
  intros Hwf. pose proof (tally_tallied results Hwf) as Ht.
  assert (map L.name (L.Leaderboard results) ≡ₚ map fst (L.tally results))
    as Hnames.
  { unfold L.Leaderboard. rewrite sort_by_wins_perm.
    by rewrite (tallied_names results). }
  split; [| split; [| split; [| split]]].
  - rewrite Hnames. by destruct Ht.
  - intros p. rewrite Hnames, <- encountered_spec.
    destruct Ht as [_ Hget]. specialize (Hget p).
    destruct (decide (p ∈ encountered results)) as [Hp | Hp].
    + split; [done |]. intros _.
      destruct (decide (p ∈ map fst (L.tally results))) as [| Hn]; [done |].
      apply map_get_None in Hn. congruence.
    + split; [| done]. intros Hin. by apply map_get_None in Hget.
  - intros s Hs. unfold L.Leaderboard in Hs. rewrite sort_by_wins_perm in Hs.
    apply list_elem_of_fmap in Hs as ([k s'] & -> & Hin). cbn [snd].
    destruct (tallied_entry results _ k s' Ht Hin) as [_ ->]. done.
  - apply sort_by_wins_sorted.
  - reflexivity.
Qed.

Lemma leaderboard_tally_witness :
  NoDup (map L.name (L.Leaderboard one_win)) ∧
  (∀ p, p ∈ map L.name (L.Leaderboard one_win) ↔
        ∃ r, r ∈ one_win ∧ p ∈ players_of r) ∧
  (∀ s, s ∈ L.Leaderboard one_win → s = expected_row one_win (L.name s)) ∧
  StronglySorted more_wins (L.Leaderboard one_win) ∧
  L.Leaderboard one_win =
    [ {| L.name := "A"; L.wins := 1; L.losses := 0; L.ties := 0 |};
      {| L.name := "B"; L.wins := 0; L.losses := 1; L.ties := 0 |} ].
Proof.
  apply (leaderboard_tally one_win).
  repeat constructor; rewrite ?elem_of_cons, ?elem_of_nil; intuition discriminate.
Defined.

(** For [[{A: 1, B: 1}]] both players get one tie. *)
Lemma leaderboard_one_tie :
  L.Leaderboard [ {| gameID := "game"; scores := [("A", 1%Z); ("B", 1%Z)] |} ] =
    [ {| L.name := "A"; L.wins := 0; L.losses := 0; L.ties := 1 |};
      {| L.name := "B"; L.wins := 0; L.losses := 0; L.ties := 1 |} ].
Proof. reflexivity. Qed.

(** With three players in a result, each pair counts once for each of
    its two players. *)
Lemma leaderboard_three_players :
  L.Leaderboard
    [ {| gameID := "game";
         scores := [("C", 1%Z); ("B", 3%Z); ("A", 2%Z)] |} ] =
    [ {| L.name := "B"; L.wins := 2; L.losses := 0; L.ties := 0 |};
      {| L.name := "A"; L.wins := 1; L.losses := 1; L.ties := 0 |};
      {| L.name := "C"; L.wins := 0; L.losses := 2; L.ties := 0 |} ].
Proof. reflexivity. Qed.

(** * Further properties *)

(** ** The board getter out of the grid *)

Lemma replay_rows (ms : list TicTacToeMove) (b : Board) :
  length b = 3 → Forall (λ m, row m < 3) ms →
  ∃ b', C.replay b ms = inr b' ∧ length b' = 3 ∧
        ∀ i j, C.cell b' i j =
               match last_piece_at ms i j with
               | Some p => inr (Some p)
               | None => C.cell b i j
               end.
Proof.
  revert b. induction ms as [| m ms IH]; intros b Hlen Hrows.
  - exists b. by repeat split.
  - apply Forall_cons in Hrows as [Hrow Hrows].
    destruct (place_spec b m Hlen Hrow) as (b1 & Hplace & Hlen1 & Hcell1).
    destruct (IH b1 Hlen1 Hrows) as (b' & Hreplay & Hlen' & Hcell').
    exists b'. split; [| split; [done |]].
    + cbn [C.replay]. rewrite Hplace. exact Hreplay.
    + intros i j. rewrite Hcell', last_piece_at_cons, Hcell1.
      destruct (last_piece_at ms i j); [done |].
      by destruct (decide (position m = (i, j))).
Qed.

Lemma replay_row_out_of_range (ms : list TicTacToeMove) (b : Board) :
  length b = 3 → Exists (λ m, (3 ≤ row m)%nat) ms →
  C.replay b ms = inl TypeError.
Proof.
  revert b. induction ms as [| m ms IH]; intros b Hlen Hex.
  - by apply Exists_nil in Hex.
  - cbn [C.replay]. destruct (decide (row m < 3)) as [Hrow | Hrow].
    + destruct (place_spec b m Hlen Hrow) as (b1 & -> & Hlen1 & _).
      apply Exists_cons in Hex as [Hm | Hex]; [lia |].
      by apply IH.
    + unfold C.place. rewrite lookup_ge_None_2 by lia. done.
Qed.

(** The [board] getter returns exactly when every move of the history
    has its row in the grid, whatever the columns are; otherwise it
    throws the [TypeError] of the assignment into a missing row. *)
Theorem board_returns_iff_rows_in_grid (c : C.t) :
  ((∃ b, C.board c = inr b) ↔ Forall (λ m, row m < 3) (C.current_moves c)) ∧
  (C.board c = inl TypeError ↔ Exists (λ m, (3 ≤ row m)%nat) (C.current_moves c)).
Proof.
  assert (Forall (λ m, row m < 3) (C.current_moves c) ∨
          Exists (λ m, (3 ≤ row m)%nat) (C.current_moves c)) as Hcases.
  { destruct (decide (Forall (λ m, row m < 3) (C.current_moves c)))
      as [| Hn]; [by left | right].
    apply not_Forall_Exists in Hn; [| apply _].
    eapply Exists_impl; [exact Hn |]. cbn. intros; lia. }
  unfold C.board. destruct Hcases as [Hall | Hex].
  - destruct (replay_rows _ C.empty_board eq_refl Hall) as (b & Hb & _).
    rewrite Hb. split.
    + split; [done | by exists b].
    + split; [done |]. intros Hex. exfalso.
      apply Exists_exists in Hex as (m & Hin & Hm).
      rewrite Forall_forall in Hall. specialize (Hall m Hin). lia.
  - rewrite (replay_row_out_of_range _ C.empty_board eq_refl Hex). split.
    + split; [by intros [b Hb] |]. intros Hall. exfalso.
      apply Exists_exists in Hex as (m & Hin & Hm).
      rewrite Forall_forall in Hall. specialize (Hall m Hin). lia.
    + done.
Qed.

(** When every row is in the grid, the board has three rows and every
    cell [(i, j)] of those rows, [j] of any size, reads as the piece of
    the last move that targets it: a move whose column is past the
    grid grows its row and leaves the nine cells of the grid alone. *)
Theorem board_cells_any_column (c : C.t) :
  Forall (λ m, row m < 3) (C.current_moves c) →
  ∃ b, C.board c = inr b ∧ length b = 3 ∧
       ∀ i j, i < 3 →
              C.cell b i j = inr (last_piece_at (C.current_moves c) i j).
Proof.
  intros Hrows.
  destruct (replay_rows _ C.empty_board eq_refl Hrows) as (b & Hb & Hlen & Hcell).
  exists b. split; [done |]. split; [done |].
  intros i j Hi. rewrite Hcell, cell_empty_board by done.
  by destruct (last_piece_at _ i j).
Qed.

Lemma board_cells_any_column_witness :
  ∃ b, C.board (sample_controller IN_PROGRESS
                  [mkMove Piece.X 0 5; mkMove Piece.O 2 2] None alice) = inr b ∧
       C.cell b 0 5 = inr (Some Piece.X) ∧ C.cell b 0 1 = inr None ∧
       C.cell b 2 2 = inr (Some Piece.O).
Proof.
  destruct (board_cells_any_column
              (sample_controller IN_PROGRESS
                 [mkMove Piece.X 0 5; mkMove Piece.O 2 2] None alice))
    as (b & Hb & _ & Hcell).
  - repeat constructor.
  - exists b. split; [exact Hb |]. rewrite !Hcell by lia. by vm_compute.
Defined.

(** A cell of the grid is filled exactly when some move targets it, so
    the number of filled cells never exceeds the move count. *)
Theorem filled_cells_bounded (c : C.t) :
  Forall (λ m, row m < 3) (C.current_moves c) →
  ∃ b, C.board c = inr b ∧
       (∀ i j, (i, j) ∈ filled_cells b ↔
               i < 3 ∧ j < 3 ∧ (i, j) ∈ map position (C.current_moves c)) ∧
       (length (filled_cells b) ≤ C.moveCount c)%nat.
Proof.
  intros Hrows.
  destruct (replay_rows _ C.empty_board eq_refl Hrows) as (b & Hb & Hlen & Hcell).
  assert (∀ i j, i < 3 →
                 C.cell b i j = inr (last_piece_at (C.current_moves c) i j))
    as Hcell'.
  { intros i j Hi. rewrite Hcell, cell_empty_board by done.
    by destruct (last_piece_at _ i j). }
  assert (∀ i j, (i, j) ∈ filled_cells b ↔
                 i < 3 ∧ j < 3 ∧ (i, j) ∈ map position (C.current_moves c))
    as Hfilled.
  { intros i j. unfold filled_cells.
    rewrite list_elem_of_filter, cell_indices_spec. split.
    - intros [Hf [Hi Hj]]. split; [done |]. split; [done |].
      by apply (is_filled_spec b _ i j (Hcell' i j Hi)).
    - intros (Hi & Hj & Hin). split; [| done].
      by apply (is_filled_spec b _ i j (Hcell' i j Hi)). }
  exists b. split; [done |]. split; [done |].
  unfold C.moveCount. rewrite <- (length_map position (C.current_moves c)).
  apply submseteq_length, NoDup_submseteq.
  - unfold filled_cells. apply NoDup_filter, NoDup_cell_indices.
  - intros [i j] Hin. by apply Hfilled in Hin as (_ & _ & ?).
Qed.

Lemma filled_cells_bounded_witness :
  ∃ b, C.board (sample_controller IN_PROGRESS
                  [mkMove Piece.X 1 1; mkMove Piece.O 1 1] None alice) = inr b ∧
       (length (filled_cells b) ≤ 2)%nat.
Proof.
  destruct (filled_cells_bounded
              (sample_controller IN_PROGRESS
                 [mkMove Piece.X 1 1; mkMove Piece.O 1 1] None alice))
    as (b & Hb & _ & Hle).
  - repeat constructor.
  - exists b. split; [exact Hb | exact Hle].
Defined.

(** ** Seats and turns *)

Lemma id_is_true (s : option PlayerID) (p : PlayerController) :
  id_is s p = true ↔ s = Some (player_id p).
Proof.
  unfold id_is. destruct s as [i |]; [| done].
  rewrite String.eqb_eq. split; [by intros -> | by intros [= ->]].
Qed.

Lemma id_is_false (s : option PlayerID) (p : PlayerController) :
  id_is s p = false ↔ s ≠ Some (player_id p).
Proof.
  rewrite <- id_is_true. by destruct (id_is s p).
Qed.

Lemma find_player_first (s : option PlayerID) (ps : list PlayerController) :
  first_with_id s ps (find_player (id_is s) ps).
Proof.
  induction ps as [| p ps IH]; cbn [find_player].
  - intros q Hq. by apply elem_of_nil in Hq.
  - destruct (id_is s p) eqn:Hp.
    + exists [], ps. split; [done |]. split; [by apply id_is_true |].
      intros q Hq. by apply elem_of_nil in Hq.
    + apply id_is_false in Hp.
      destruct (find_player (id_is s) ps) as [p' |]; cbn in *.
      * destruct IH as (before & after & -> & Hs & Hbefore).
        exists (p :: before), after. split; [done |]. split; [done |].
        intros q Hq. apply elem_of_cons in Hq as [-> | Hq]; [done |].
        by apply Hbefore.
      * intros q Hq. apply elem_of_cons in Hq as [-> | Hq]; [done |].
        by apply IH.
Qed.

(** The [x], [o] and [winner] getters return the first player of the
    game whose [id] is the one the snapshot records for that role, and
    [undefined] when the snapshot records none or no player of the
    game has it. *)
Theorem role_getters_first_match (c : C.t) :
  first_with_id (C.seat_x c) (C.players c) (C.x c) ∧
  first_with_id (C.seat_o c) (C.players c) (C.o c) ∧
  first_with_id (recorded_winner c) (C.players c) (C.winner c).
Proof. repeat split; apply find_player_first. Qed.

Lemma whoseTurn_Some (c : C.t) (p : PlayerController) :
  C.whoseTurn c = Some p →
  C.status c = IN_PROGRESS ∧ p ∈ C.players c ∧
  truthy (seat_to_play c) = true ∧ seat_to_play c = Some (player_id p).
Proof.
  unfold C.whoseTurn, C.status, seat_to_play, C.seat_x, C.seat_o.
  destruct (C.gameState c) as [s |]; [| done].
  destruct (decide (state_status s = IN_PROGRESS)) as [Hst |]; [| done].
  intros Hturn. split; [done |].
  destruct (Nat.even (C.moveCount c)) eqn:Hparity.
  - rewrite whoseTurn_loop_even in Hturn by done.
    destruct (truthy (state_x s)); [| done].
    pose proof (find_player_first (state_x s) (C.players c)) as Hfirst.
    rewrite Hturn in Hfirst. destruct Hfirst as (l1 & l2 & Hps & Hs & _).
    split; [| done]. rewrite Hps. apply elem_of_app. right. by left.
  - rewrite whoseTurn_loop_odd in Hturn by done.
    destruct (truthy (state_o s)); [| done].
    pose proof (find_player_first (state_o s) (C.players c)) as Hfirst.
    rewrite Hturn in Hfirst. destruct Hfirst as (l1 & l2 & Hps & Hs & _).
    split; [| done]. rewrite Hps. apply elem_of_app. right. by left.
Qed.

(** Whoever [whoseTurn] returns is a player of a game in progress
    whose [id] is the non-empty identifier recorded for the seat to
    play: X after an even number of moves, O after an odd one. *)
Theorem whoseTurn_sound (c : C.t) (p : PlayerController) :
  C.whoseTurn c = Some p →
  C.status c = IN_PROGRESS ∧ p ∈ C.players c ∧
  player_id p ≠ "" ∧ seat_to_play c = Some (player_id p).
Proof.
  intros Hturn.
  destruct (whoseTurn_Some c p Hturn) as (Hst & Hin & Htruthy & Hseat).
  repeat split; [done | done | | done].
  rewrite Hseat in Htruthy. cbn in Htruthy.
  intros Hempty. rewrite Hempty in Htruthy. done.
Qed.

Lemma whoseTurn_sound_witness :
  C.status (sample_controller IN_PROGRESS [mkMove Piece.X 0 0] None alice)
    = IN_PROGRESS ∧
  bob ∈ [alice; bob] ∧ player_id bob ≠ "" ∧
  seat_to_play (sample_controller IN_PROGRESS [mkMove Piece.X 0 0] None alice)
    = Some "bob".
Proof.
  apply (whoseTurn_sound
           (sample_controller IN_PROGRESS [mkMove Piece.X 0 0] None alice) bob).
  reflexivity.
Defined.

Lemma find_player_falsy_seat (s : option PlayerID) (ps : list PlayerController) :
  Forall (λ p, player_id p ≠ "") ps → truthy s = false →
  find_player (id_is s) ps = None.
Proof.
  intros Hids Hs.
  pose proof (find_player_first s ps) as Hfirst.
  destruct (find_player (id_is s) ps) as [p |]; [| done].
  destruct Hfirst as (before & after & -> & -> & _).
  apply Forall_app in Hids as [_ Hids]. apply Forall_cons in Hids as [Hp _].
  cbn in Hs. apply negb_false_iff, String.eqb_eq in Hs. done.
Qed.

(** C6: with player identifiers non-empty, while the game is
    [IN_PROGRESS] the [whoseTurn] getter returns the player holding the
    X seat when the move count is even and the player holding the O
    seat when it is odd; when the status is not [IN_PROGRESS] it
    returns [undefined]. *)
Theorem whoseTurn_seat_holder (c : C.t) :
  Forall (λ p, player_id p ≠ "") (C.players c) →
  (C.status c = IN_PROGRESS →
   C.whoseTurn c = if Nat.even (C.moveCount c) then C.x c else C.o c) ∧
  (C.status c ≠ IN_PROGRESS → C.whoseTurn c = None).
Proof.
  intros Hids. rewrite whoseTurn_by_parity. split.
  - intros Hst. rewrite decide_True by done.
    destruct (Nat.even (C.moveCount c)).
    + destruct (truthy (C.seat_x c)) eqn:Hx; [done |].
      symmetry. by apply find_player_falsy_seat.
    + destruct (truthy (C.seat_o c)) eqn:Ho; [done |].
      symmetry. by apply find_player_falsy_seat.
  - intros Hst. by rewrite decide_False.
Qed.

Lemma whoseTurn_seat_holder_witness :
  C.whoseTurn (sample_controller IN_PROGRESS [] None bob) = Some alice ∧
  C.whoseTurn (sample_controller IN_PROGRESS [mkMove Piece.X 0 0] None bob)
    = Some bob ∧
  C.whoseTurn (sample_controller OVER [mkMove Piece.X 0 0] None bob) = None.
Proof.
  split; [| split].
  - apply (whoseTurn_seat_holder (sample_controller IN_PROGRESS [] None bob));
      [| reflexivity].
    apply (bool_decide_unpack _). by vm_compute.
  - apply (whoseTurn_seat_holder
             (sample_controller IN_PROGRESS [mkMove Piece.X 0 0] None bob));
      [| reflexivity].
    apply (bool_decide_unpack _). by vm_compute.
  - apply (whoseTurn_seat_holder
             (sample_controller OVER [mkMove Piece.X 0 0] None bob));
      [| discriminate].
    apply (bool_decide_unpack _). by vm_compute.
Defined.

(** When [isOurTurn] is true the game is active and the viewer is, as
    an object, a player of the game whose [id] is the one recorded for
    the seat to play. *)
Theorem isOurTurn_true (c : C.t) :
  C.isOurTurn c = true →
  C.isActive c = true ∧
  ∃ p, p ∈ C.players c ∧ ref p = ref (ourPlayer (C._townController c)) ∧
       seat_to_play c = Some (player_id p).
Proof.
  intros Hours.
  assert (∃ p, C.whoseTurn c = Some p ∧
               ref p = ref (ourPlayer (C._townController c))) as (p & Hp & Href).
  { unfold C.isOurTurn in Hours.
    destruct (C.gameState c) as [s |]; [| done].
    destruct (decide (state_status s = IN_PROGRESS)); [| done].
    destruct (C.whoseTurn c) as [p |]; [| done].
    exists p. split; [done |]. cbn in Hours.
    apply Nat.eqb_eq in Hours. done. }
  destruct (whoseTurn_Some c p Hp) as (Hst & Hin & _ & Hseat).
  split.
  - unfold C.isActive. by rewrite decide_True.
  - by exists p.
Qed.

Lemma isOurTurn_true_witness :
  C.isActive (sample_controller IN_PROGRESS [] None alice) = true ∧
  ∃ p, p ∈ [alice; bob] ∧ ref p = ref alice ∧
       seat_to_play (sample_controller IN_PROGRESS [] None alice)
         = Some (player_id p).
Proof.
  apply (isOurTurn_true (sample_controller IN_PROGRESS [] None alice)).
  reflexivity.
Defined.

(** ** The viewer's piece *)

Lemma isPlayer_spec (c : C.t) :
  C.isPlayer c = true ↔
  ∃ p, p ∈ C.players c ∧
       player_id p = player_id (ourPlayer (C._townController c)).
Proof.
  unfold C.isPlayer. rewrite existsb_exists. split.
  - intros (p & Hin & Hp). exists p. split; [by apply list_elem_of_In |].
    by apply String.eqb_eq.
  - intros (p & Hin & Hp). exists p. split; [by apply list_elem_of_In |].
    by apply String.eqb_eq.
Qed.

(** [gamePiece] throws exactly when no player of the game has the
    viewer's [id], and what it throws is
    [PLAYER_NOT_IN_GAME_ERROR]. *)
Theorem gamePiece_throws_iff (c : C.t) :
  (C.gamePiece c = inl (Error PLAYER_NOT_IN_GAME_ERROR) ↔
   ∀ p, p ∈ C.players c →
        player_id p ≠ player_id (ourPlayer (C._townController c))) ∧
  (∀ e, C.gamePiece c = inl e → e = Error PLAYER_NOT_IN_GAME_ERROR).
Proof.
  pose proof (isPlayer_spec c) as Hspec. unfold C.gamePiece.
  destruct (C.isPlayer c); cbn [negb].
  - assert (∃ p, p ∈ C.players c ∧
                 player_id p = player_id (ourPlayer (C._townController c)))
      as (p & Hin & Hp) by by apply Hspec.
    split.
    + split; [by destruct (same_player _ _) |].
      intros Hnone. by destruct (Hnone p Hin).
    + intros e. by destruct (same_player _ _).
  - split.
    + split; [| done]. intros _ p Hin Hp.
      assert (false = true) as H; [| done]. apply Hspec. by exists p.
    + intros e [= <-]. done.
Qed.

(** A viewer the [x] getter returns plays ['X']; a viewer the [o]
    getter returns plays ['O'] unless the [x] getter returns the same
    object. In both cases [gamePiece] does not throw. *)
Theorem gamePiece_of_seat (c : C.t) :
  C.x c = Some (ourPlayer (C._townController c)) ∨
  C.o c = Some (ourPlayer (C._townController c)) →
  C.isPlayer c = true ∧
  C.gamePiece c =
    inr (if same_player (Some (ourPlayer (C._townController c))) (C.x c)
         then Piece.X else Piece.O) ∧
  (C.x c = Some (ourPlayer (C._townController c)) →
   C.gamePiece c = inr Piece.X).
Proof.
  intros Hseat.
  assert (C.isPlayer c = true) as Hplayer.
  { apply isPlayer_spec. exists (ourPlayer (C._townController c)).
    split; [| done].
    destruct Hseat as [Hx | Ho].
    - pose proof (find_player_first (C.seat_x c) (C.players c)) as Hfirst.
      fold (C.x c) in Hfirst. rewrite Hx in Hfirst.
      destruct Hfirst as (l1 & l2 & -> & _). apply elem_of_app. right. by left.
    - pose proof (find_player_first (C.seat_o c) (C.players c)) as Hfirst.
      fold (C.o c) in Hfirst. rewrite Ho in Hfirst.
      destruct Hfirst as (l1 & l2 & -> & _). apply elem_of_app. right. by left. }
  split; [done |]. unfold C.gamePiece. rewrite Hplayer. cbn [negb].
  split; [by destruct (same_player _ _) |].
  intros ->. cbn [same_player]. by rewrite Nat.eqb_refl.
Qed.

Lemma gamePiece_of_seat_witness :
  C.isPlayer (sample_controller IN_PROGRESS [] None bob) = true ∧
  C.gamePiece (sample_controller IN_PROGRESS [] None bob) = inr Piece.O.
Proof.
  destruct (gamePiece_of_seat (sample_controller IN_PROGRESS [] None bob))
    as (Hplayer & Hpiece & _).
  - right. reflexivity.
  - split; [exact Hplayer | exact Hpiece].
Defined.

(** ** Every outcome of a move request *)

(** [makeMove] has three outcomes. Without a truthy session identifier
    it throws [NO_GAME_IN_PROGRESS_ERROR]; with one, a viewer who is not
    a player gets [PLAYER_NOT_IN_GAME_ERROR]; in both cases nothing is
    sent. Otherwise exactly one command is handed to the transport,
    for this area, tagged with the session identifier and carrying the
    viewer's piece and the row and column as given, and the call
    settles as the transport does. *)
Theorem makeMove_outcomes reply (c : C.t) (row col : nat) :
  (truthy (C._instanceID c) = false ∧
   C.makeMove reply c row col = (inl (Error NO_GAME_IN_PROGRESS_ERROR), [])) ∨
  (truthy (C._instanceID c) = true ∧ C.isPlayer c = false ∧
   C.makeMove reply c row col = (inl (Error PLAYER_NOT_IN_GAME_ERROR), [])) ∨
  (∃ instanceID piece,
     C._instanceID c = Some instanceID ∧ instanceID ≠ "" ∧
     C.isPlayer c = true ∧ C.gamePiece c = inr piece ∧
     C.makeMove reply c row col =
       (reply (C.id c)
          {| cmd_gameID := instanceID; cmd_move := mkMove piece row col |},
        [(C.id c,
          {| cmd_gameID := instanceID; cmd_move := mkMove piece row col |})])).
Proof.
  unfold C.makeMove. cbn [method_value_truthy negb].
  destruct (C._instanceID c) as [i |] eqn:Hid; [| by left].
  destruct (truthy (Some i)) eqn:Htruthy; cbn [negb]; [| by left].
  right. destruct (C.isPlayer c) eqn:Hplayer.
  - right. unfold C.gamePiece. rewrite Hplayer. cbn [negb].
    exists i. destruct (same_player _ (C.x c)); eexists;
      (split; [done |]); (split; [by intros -> |]); by repeat split.
  - left. unfold C.gamePiece. rewrite Hplayer. by repeat split.
Qed.

Lemma gamePiece_same_session (c1 c2 : C.t) :
  same_session c1 c2 → C.gamePiece c1 = C.gamePiece c2.
Proof.
  intros (_ & Hps & _ & Htc & Hx).
  unfold C.gamePiece, C.isPlayer, C.x. by rewrite Hps, Htc, Hx.
Qed.

(** [makeMove] never consults the status of the game, its move
    history, its winner or its O seat: two controllers that agree on
    the area, the players, the session identifier, the viewer and the
    X seat answer a move request alike, whatever cell it names. *)
Theorem makeMove_ignores_progress reply (c1 c2 : C.t) (row col : nat) :
  same_session c1 c2 →
  C.makeMove reply c1 row col = C.makeMove reply c2 row col.
Proof.
  intros Hsame. pose proof (gamePiece_same_session c1 c2 Hsame) as Hpiece.
  destruct Hsame as (Hid & _ & Hinst & _ & _).
  unfold C.makeMove. by rewrite Hid, Hinst, Hpiece.
Qed.

Lemma makeMove_ignores_progress_witness :
  C.makeMove acknowledge
    (sample_controller IN_PROGRESS [] (Some "game") bob) 1 1 =
  C.makeMove acknowledge
    (sample_controller OVER [mkMove Piece.O 1 1] (Some "game") bob) 1 1.
Proof.
  apply (makeMove_ignores_progress acknowledge
           (sample_controller IN_PROGRESS [] (Some "game") bob)
           (sample_controller OVER [mkMove Piece.O 1 1] (Some "game") bob) 1 1).
  by repeat split.
Defined.

(** ** Clicking a square *)

(** [handleSquareClick] catches what [makeMove] throws: without a
    session it shows the toast "Error: No game in progress", for a
    viewer who is not a player "Error: Player is not in game", each
    with status "error" and nothing sent; for a player with a session
    it sends the one command and shows a toast only if the transport
    rejects. *)
Theorem handleSquareClick_toasts reply type_error_message (c : C.t)
    (row col : nat) :
  (truthy (C._instanceID c) = false →
   TicTacToeBoard.handleSquareClick reply type_error_message c row col =
     ([TicTacToeBoard.mkToast "Error: No game in progress" "error"], [])) ∧
  (truthy (C._instanceID c) = true → C.isPlayer c = false →
   TicTacToeBoard.handleSquareClick reply type_error_message c row col =
     ([TicTacToeBoard.mkToast "Error: Player is not in game" "error"], [])) ∧
  (truthy (C._instanceID c) = true → C.isPlayer c = true →
   ∃ instanceID piece,
     C._instanceID c = Some instanceID ∧ C.gamePiece c = inr piece ∧
     TicTacToeBoard.handleSquareClick reply type_error_message c row col =
       (match reply (C.id c)
                {| cmd_gameID := instanceID;
                   cmd_move := mkMove piece row col |} with
        | inr _ => []
        | inl error =>
            [TicTacToeBoard.mkToast
               (String.append "Error: "
                  (TicTacToeBoard.message type_error_message error))
               "error"]
        end,
        [(C.id c,
          {| cmd_gameID := instanceID; cmd_move := mkMove piece row col |})])).
Proof.
  unfold TicTacToeBoard.handleSquareClick, C.makeMove.
  cbn [method_value_truthy negb].
  destruct (C._instanceID c) as [i |] eqn:Hid.
  - destruct (truthy (Some i)) eqn:Htruthy; cbn [negb].
    + split; [done |]. unfold C.gamePiece.
      destruct (C.isPlayer c); cbn [negb].
      * split; [done |]. intros _ _. exists i.
        destruct (same_player _ (C.x c)); eexists;
          (split; [done |]); (split; [done |]);
          unfold ret, mret, Res_ret; cbv beta iota;
          by destruct (reply (C.id c) _).
      * split; [done |]. done.
    + split; [done |]. split; done.
  - split; [done |]. split; done.
Qed.

(** ** Comparing boards *)

Lemma areBoardEqual_loop_defined (b1 b2 : Board) (ijs : list (nat * nat)) :
  (∀ i j, (i, j) ∈ ijs → i < length b1 ∧ i < length b2) →
  ∃ equal, C.areBoardEqual_loop b1 b2 ijs = inr equal ∧
           (equal = true ↔ ∀ i j, (i, j) ∈ ijs → C.cell b1 i j = C.cell b2 i j).
Proof.
  induction ijs as [| [i j] ijs IH]; intros Hrange.
  - exists true. split; [done |]. split; [| done].
    intros _ i j Hin. by apply elem_of_nil in Hin.
  - destruct (Hrange i j) as [Hi1 Hi2]; [by left |].
    destruct (lookup_lt_is_Some_2 b1 i Hi1) as [r1 Hr1].
    destruct (lookup_lt_is_Some_2 b2 i Hi2) as [r2 Hr2].
    destruct IH as (equal & Hloop & Hequal).
    { intros i' j' Hin. apply (Hrange i' j'). by right. }
    assert (C.cell b1 i j = inr (array_get r1 j)) as Hc1
      by (unfold C.cell; by rewrite Hr1).
    assert (C.cell b2 i j = inr (array_get r2 j)) as Hc2
      by (unfold C.cell; by rewrite Hr2).
    cbn [C.areBoardEqual_loop]. rewrite Hc1, Hc2. cbn [mbind Res_bind].
    destruct (decide (array_get r1 j ≠ array_get r2 j)) as [Hne | Heq].
    + exists false. split; [done |]. split; [done |].
      intros Hall. exfalso. apply Hne.
      assert (C.cell b1 i j = C.cell b2 i j) as H by (apply Hall; by left).
      rewrite Hc1, Hc2 in H. by inversion H.
    + apply dec_stable in Heq.
      exists equal. split; [done |]. rewrite Hequal. split.
      * intros Hall i' j' Hin. apply elem_of_cons in Hin as [Hin | Hin].
        -- inversion Hin; subst. by rewrite Hc1, Hc2, Heq.
        -- by apply Hall.
      * intros Hall i' j' Hin. apply Hall. by right.
Qed.

(** On two arrays of at least three rows [_areBoardEqual] returns, and
    it returns [true] exactly when the nine cells of rows and columns
    0 to 2 agree, a missing cell reading as empty; further rows and
    columns are not looked at. *)
Theorem areBoardEqual_nine_cells (b1 b2 : Board) :
  (3 ≤ length b1)%nat → (3 ≤ length b2)%nat →
  ∃ equal, C._areBoardEqual b1 b2 = inr equal ∧
           (equal = true ↔
            ∀ i j, i < 3 → j < 3 → C.cell b1 i j = C.cell b2 i j).
Proof.
  intros Hlen1 Hlen2.
  destruct (areBoardEqual_loop_defined b1 b2 C.cell_indices)
    as (equal & Hloop & Hequal).
  { intros i j Hin. apply cell_indices_spec in Hin as [Hi _]. lia. }
  exists equal. split; [done |]. rewrite Hequal. split.
  - intros Hall i j Hi Hj. apply Hall. by apply cell_indices_spec.
  - intros Hall i j Hin. apply cell_indices_spec in Hin as [Hi Hj].
    by apply Hall.
Qed.

Lemma areBoardEqual_nine_cells_witness :
  ∃ equal,
    C._areBoardEqual
      [ [Some Piece.X; None; None; Some Piece.O]; []; [None] ]
      [ [Some Piece.X]; [None; None; None]; []; [Some Piece.X] ] = inr equal ∧
    (equal = true ↔
     ∀ i j, i < 3 → j < 3 →
            C.cell [ [Some Piece.X; None; None; Some Piece.O]; []; [None] ] i j =
            C.cell [ [Some Piece.X]; [None; None; None]; []; [Some Piece.X] ] i j).
Proof.
  apply (areBoardEqual_nine_cells
           [ [Some Piece.X; None; None; Some Piece.O]; []; [None] ]
           [ [Some Piece.X]; [None; None; None]; []; [Some Piece.X] ]);
    simpl; lia.
Defined.

Lemma areBoardEqual_loop_true (b1 b2 : Board) (ijs : list (nat * nat)) :
  C.areBoardEqual_loop b1 b2 ijs = inr true →
  ∀ i j, (i, j) ∈ ijs → i < length b1 ∧ i < length b2.
Proof.
  induction ijs as [| [i j] ijs IH]; intros Hloop i' j' Hin.
  - by apply elem_of_nil in Hin.
  - cbn [C.areBoardEqual_loop] in Hloop. unfold C.cell in Hloop.
    destruct (b1 !! i) as [r1 |] eqn:Hr1; [| discriminate Hloop].
    destruct (b2 !! i) as [r2 |] eqn:Hr2; [| discriminate Hloop].
    cbn [mbind Res_bind ret mret Res_ret] in Hloop.
    destruct (decide (array_get r1 j ≠ array_get r2 j)); [discriminate Hloop |].
    apply elem_of_cons in Hin as [Hin | Hin].
    + inversion Hin; subst. split; by eapply lookup_lt_Some.
    + by apply (IH Hloop i' j').
Qed.

(** [_areBoardEqual] never reports two boards equal when one of them
    has fewer than three rows: it finds a difference before the
    missing row or throws on reaching it. *)
Theorem areBoardEqual_missing_row (b1 b2 : Board) :
  length b1 < 3 ∨ length b2 < 3 →
  C._areBoardEqual b1 b2 ≠ inr true.
Proof.
  intros Hshort Htrue.
  destruct (areBoardEqual_loop_true b1 b2 C.cell_indices Htrue 2 0) as [H1 H2].
  - apply cell_indices_spec. lia.
  - lia.
Qed.

Lemma areBoardEqual_missing_row_witness :
  C._areBoardEqual [ [None; None; None]; [None; None; None] ]
                   [ [None; None; None]; [None; None; None] ] ≠ inr true.
Proof.
  apply (areBoardEqual_missing_row
           [ [None; None; None]; [None; None; None] ]
           [ [None; None; None]; [None; None; None] ]).
  left. simpl. lia.
Defined.

(** ** More on applying a snapshot *)

Lemma boardChanged_in_events (l : list C.GameEvent) (changed turned : bool)
    (newBoard : Board) (v : bool) :
  (∃ b, C.boardChanged b ∈
          map C.inherited l
          ++ (if changed then [C.boardChanged newBoard] else [])
          ++ (if turned then [C.turnChanged v] else []))
  ↔ changed = true.
Proof.
  split.
  - intros [b Hb]. rewrite !elem_of_app in Hb. destruct Hb as [H | [H | H]].
    + by apply inherited_not_boardChanged in H.
    + destruct changed; [done | by apply elem_of_nil in H].
    + destruct turned; [| by apply elem_of_nil in H].
      apply list_elem_of_singleton in H. discriminate H.
  - intros ->. exists newBoard. rewrite !elem_of_app. right; left.
    by apply list_elem_of_singleton.
Qed.

Lemma turnChanged_in_events (l : list C.GameEvent) (changed turned : bool)
    (newBoard : Board) (v : bool) :
  (∃ w, C.turnChanged w ∈
          map C.inherited l
          ++ (if changed then [C.boardChanged newBoard] else [])
          ++ (if turned then [C.turnChanged v] else []))
  ↔ turned = true.
Proof.
  split.
  - intros [w Hw]. rewrite !elem_of_app in Hw. destruct Hw as [H | [H | H]].
    + by apply inherited_not_turnChanged in H.
    + destruct changed; [| by apply elem_of_nil in H].
      apply list_elem_of_singleton in H. discriminate H.
    + destruct turned; [done | by apply elem_of_nil in H].
  - intros ->. exists v. rewrite !elem_of_app. right; right.
    by apply list_elem_of_singleton.
Qed.

(** [_updateFrom] returns the controller exactly as the inherited
    method left it, and its events are the inherited ones, in their
    order, followed by at most one [boardChanged] and then at most one
    [turnChanged]. *)
Theorem updateFrom_event_order super (c : C.t) (newModel : GameArea) :
  (∀ c0 m, C._model (super c0 m).1 = m) →
  wf_model (C._model c) → wf_model newModel →
  ∃ own, C._updateFrom super c newModel =
           inr ((super c newModel).1,
                map C.inherited (super c newModel).2 ++ own) ∧
         own_events own.
Proof.
  intros Hsuper Hold Hnew.
  destruct (updateFrom_spec super c newModel Hsuper Hold Hnew)
    as (oldBoard & newBoard & changed & _ & _ & _ & Hupd).
  eexists. split; [exact Hupd |].
  eexists _, _. split; [reflexivity |]. split.
  - destruct changed; [right; by eexists | by left].
  - destruct (negb _); [right; by eexists | by left].
Qed.

Lemma updateFrom_event_order_witness :
  ∃ own, C._updateFrom base_updateFrom
           (sample_controller IN_PROGRESS [] (Some "game") alice)
           (sample_model IN_PROGRESS [mkMove Piece.X 2 2]) =
           inr ((base_updateFrom
                   (sample_controller IN_PROGRESS [] (Some "game") alice)
                   (sample_model IN_PROGRESS [mkMove Piece.X 2 2])).1,
                map C.inherited
                  (base_updateFrom
                     (sample_controller IN_PROGRESS [] (Some "game") alice)
                     (sample_model IN_PROGRESS [mkMove Piece.X 2 2])).2
                ++ own) ∧
         own_events own.
Proof.
  apply (updateFrom_event_order base_updateFrom
           (sample_controller IN_PROGRESS [] (Some "game") alice)
           (sample_model IN_PROGRESS [mkMove Piece.X 2 2])).
  - reflexivity.
  - apply Forall_nil_2.
  - repeat constructor.
Defined.

Lemma gameState_of_model (c : C.t) : C.gameState c = model_state (C._model c).
Proof. reflexivity. Qed.

Lemma boards_differ_irrefl (b : Board) : ¬ boards_differ b b.
Proof. by intros (i & j & _ & _ & H). Qed.

(** A snapshot whose game state is the one already held (the same
    status, seats, moves and winner; the history, the occupants or the
    identifiers may differ) emits nothing beside the inherited events,
    as long as the inherited method leaves the players and the viewer
    as they were. *)
Theorem updateFrom_same_state super (c : C.t) (newModel : GameArea) :
  (∀ c0 m, C._model (super c0 m).1 = m) →
  C.players (super c newModel).1 = C.players c →
  C._townController (super c newModel).1 = C._townController c →
  wf_model (C._model c) →
  model_state newModel = C.gameState c →
  C._updateFrom super c newModel =
    inr ((super c newModel).1, map C.inherited (super c newModel).2).
Proof.
  intros Hsuper Hplayers Htown Hold Hstate.
  assert (C.gameState (super c newModel).1 = C.gameState c) as Hgs.
  { by rewrite gameState_of_model, Hsuper. }
  assert (wf_model newModel) as Hnew.
  { unfold wf_model. unfold wf_model in Hold.
    rewrite gameState_of_model in Hstate. unfold model_state in Hstate.
    destruct (game newModel) as [g |]; [| done].
    destruct (game (C._model c)) as [g0 |]; [| done].
    by inversion Hstate as [Hg]; rewrite Hg. }
  destruct (updateFrom_spec super c newModel Hsuper Hold Hnew)
    as (oldBoard & newBoard & changed & Hob & Hnb & Hchanged & Hupd).
  assert (C.board (super c newModel).1 = C.board c) as Hboard.
  { unfold C.board, C.current_moves. by rewrite Hgs. }
  assert (C.isOurTurn (super c newModel).1 = C.isOurTurn c) as Hturn.
  { unfold C.isOurTurn, C.whoseTurn, C.moveCount, C.current_moves.
    by rewrite Hgs, Hplayers, Htown. }
  rewrite Hupd, Hturn. rewrite Bool.eqb_reflx. cbn [negb].
  rewrite Hboard, Hob in Hnb. inversion Hnb; subst.
  destruct changed.
  - exfalso. by apply (boards_differ_irrefl newBoard), Hchanged.
  - by rewrite !app_nil_r.
Qed.

Lemma updateFrom_same_state_witness :
  C._updateFrom base_updateFrom
    (sample_controller IN_PROGRESS [mkMove Piece.X 0 0] (Some "game") alice)
    {| area_id := "area"; occupants := ["alice"; "bob"; "carol"];
       history := one_win;
       game := Some {| game_id := "game"; game_players := ["alice"; "bob"];
                       game_state :=
                         sample_state IN_PROGRESS [mkMove Piece.X 0 0] |} |} =
  inr ((base_updateFrom
          (sample_controller IN_PROGRESS [mkMove Piece.X 0 0] (Some "game") alice)
          {| area_id := "area"; occupants := ["alice"; "bob"; "carol"];
             history := one_win;
             game := Some {| game_id := "game";
                             game_players := ["alice"; "bob"];
                             game_state :=
                               sample_state IN_PROGRESS
                                 [mkMove Piece.X 0 0] |} |}).1,
       map C.inherited [C.gameUpdated]).
Proof.
  apply (updateFrom_same_state base_updateFrom
           (sample_controller IN_PROGRESS [mkMove Piece.X 0 0] (Some "game") alice)).
  - reflexivity.
  - reflexivity.
  - reflexivity.
  - repeat constructor.
  - reflexivity.
Defined.

Lemma last_piece_at_snoc (ms : list TicTacToeMove) (m : TicTacToeMove)
    (i j : nat) :
  last_piece_at (ms ++ [m]) i j =
  if decide (position m = (i, j)) then Some (gamePiece m)
  else last_piece_at ms i j.
Proof.
  unfold last_piece_at. rewrite filter_app, filter_cons, filter_nil.
  destruct (decide (position m = (i, j))).
  - by rewrite last_snoc.
  - by rewrite app_nil_r.
Qed.

Lemma current_moves_of_model (c : C.t) :
  C.current_moves c = model_moves (C._model c).
Proof. reflexivity. Qed.

(** When the new snapshot extends the held history by one valid move,
    [boardChanged] is emitted unless the targeted cell already holds
    that piece: a move onto an empty cell, or one that replaces the
    other piece, is announced; a repeated move is not. *)
Theorem updateFrom_appended_move super (c : C.t) (newModel : GameArea)
    (m : TicTacToeMove) :
  (∀ c0 m0, C._model (super c0 m0).1 = m0) →
  wf_model (C._model c) → valid_move m →
  model_moves newModel = C.current_moves c ++ [m] →
  ∃ c' events,
    C._updateFrom super c newModel = inr (c', events) ∧
    ((∃ b, C.boardChanged b ∈ events) ↔
     last_piece_at (C.current_moves c) (row m) (col m) ≠ Some (gamePiece m)).
Proof.
  intros Hsuper Hold Hm Hmoves.
  assert (Forall valid_move (model_moves newModel)) as Hnew_moves.
  { rewrite Hmoves. apply Forall_app. split; [by apply wf_model_moves |].
    by apply Forall_singleton. }
  assert (wf_model newModel) as Hnew.
  { unfold wf_model. unfold model_moves, model_state in Hnew_moves.
    by destruct (game newModel). }
  destruct (updateFrom_spec super c newModel Hsuper Hold Hnew)
    as (oldBoard & newBoard & changed & Hob & Hnb & Hchanged & Hupd).
  eexists _, _. split; [exact Hupd |].
  rewrite boardChanged_in_events, Hchanged.
  destruct (board_spec c (wf_model_moves c Hold)) as (b0 & Hb0 & _ & Hcell0).
  rewrite Hob in Hb0. inversion Hb0; subst b0. clear Hb0.
  assert (C.current_moves (super c newModel).1 = C.current_moves c ++ [m])
    as Hmoves'.
  { by rewrite current_moves_of_model, Hsuper. }
  destruct (board_spec (super c newModel).1) as (b1 & Hb1 & _ & Hcell1).
  { by rewrite Hmoves', <- Hmoves. }
  rewrite Hnb in Hb1. inversion Hb1; subst b1. clear Hb1.
  rewrite Hmoves' in Hcell1.
  destruct Hm as [Hrow Hcol]. unfold valid_position in *.
  split.
  - intros (i & j & Hi & Hj & Hne) Hlast.
    rewrite Hcell0, Hcell1, last_piece_at_snoc in Hne by done.
    destruct (decide (position m = (i, j))) as [Hpos | Hpos]; [| done].
    unfold position in Hpos. inversion Hpos; subst. by rewrite Hlast in Hne.
  - intros Hlast. exists (row m), (col m). split; [done |]. split; [done |].
    rewrite Hcell0, Hcell1, last_piece_at_snoc by done.
    rewrite decide_True by done. intros Heq. apply Hlast. by inversion Heq.
Qed.

Lemma updateFrom_appended_move_witness :
  ∃ c' events,
    C._updateFrom base_updateFrom
      (sample_controller IN_PROGRESS [mkMove Piece.X 1 1] (Some "game") alice)
      (sample_model IN_PROGRESS [mkMove Piece.X 1 1; mkMove Piece.O 0 0])
      = inr (c', events) ∧
    ((∃ b, C.boardChanged b ∈ events) ↔
     last_piece_at [mkMove Piece.X 1 1] 0 0 ≠ Some Piece.O).
Proof.
  apply (updateFrom_appended_move base_updateFrom
           (sample_controller IN_PROGRESS [mkMove Piece.X 1 1] (Some "game") alice)
           (sample_model IN_PROGRESS [mkMove Piece.X 1 1; mkMove Piece.O 0 0])
           (mkMove Piece.O 0 0)).
  - reflexivity.
  - repeat constructor.
  - repeat constructor.
  - reflexivity.
Defined.

Lemma isOurTurn_in_progress (c : C.t) (s : TicTacToeGameState) :
  C.gameState c = Some s → state_status s = IN_PROGRESS →
  truthy (state_x s) = true → truthy (state_o s) = true →
  C.isOurTurn c =
  same_player (Some (ourPlayer (C._townController c)))
    (if Nat.even (length (state_moves s))
     then find_player (id_is (state_x s)) (C.players c)
     else find_player (id_is (state_o s)) (C.players c)).
Proof.
  intros Hs Hst Hx Ho.
  unfold C.isOurTurn, C.whoseTurn, C.moveCount, C.current_moves.
  rewrite Hs. rewrite !decide_True by done.
  destruct (Nat.even (length (state_moves s))) eqn:Hparity.
  - rewrite whoseTurn_loop_even by done. by rewrite Hx.
  - rewrite whoseTurn_loop_odd by done. by rewrite Ho.
Qed.

(** While the game stays in progress with both seats taken and the
    same players, a snapshot that changes the parity of the move count
    emits [turnChanged] exactly for a viewer who is one of the two
    seated players and not the other; the value it carries is the
    opposite of the turn flag before. A viewer who holds neither seat
    gets no [turnChanged]. *)
Theorem updateFrom_turn_passes super (c : C.t) (newModel : GameArea)
    (old new : TicTacToeGameState) :
  (∀ c0 m, C._model (super c0 m).1 = m) →
  C.players (super c newModel).1 = C.players c →
  C._townController (super c newModel).1 = C._townController c →
  wf_model (C._model c) → wf_model newModel →
  C.gameState c = Some old → model_state newModel = Some new →
  state_status old = IN_PROGRESS → state_status new = IN_PROGRESS →
  state_x new = state_x old → state_o new = state_o old →
  truthy (state_x old) = true → truthy (state_o old) = true →
  Nat.even (length (state_moves new)) =
    negb (Nat.even (length (state_moves old))) →
  ∃ c' events,
    C._updateFrom super c newModel = inr (c', events) ∧
    ((∃ v, C.turnChanged v ∈ events) ↔
     same_player (Some (ourPlayer (C._townController c))) (C.x c) ≠
     same_player (Some (ourPlayer (C._townController c))) (C.o c)) ∧
    (∀ v, C.turnChanged v ∈ events → v = negb (C.isOurTurn c)).
Proof.
  intros Hsuper Hplayers Htown Hold Hnew Hs_old Hs_new Hst_old Hst_new
    Hx Ho Htx Hto Hparity.
  destruct (updateFrom_spec super c newModel Hsuper Hold Hnew)
    as (oldBoard & newBoard & changed & _ & _ & _ & Hupd).
  assert (C.gameState (super c newModel).1 = Some new) as Hs_new'.
  { by rewrite gameState_of_model, Hsuper. }
  pose proof (isOurTurn_in_progress c old Hs_old Hst_old Htx Hto) as Hturn_old.
  pose proof (isOurTurn_in_progress (super c newModel).1 new Hs_new' Hst_new)
    as Hturn_new.
  rewrite Hx, Ho, Hplayers, Htown, Hparity in Hturn_new.
  specialize (Hturn_new Htx Hto).
  assert (C.x c = find_player (id_is (state_x old)) (C.players c)) as Hxc.
  { unfold C.x, C.seat_x. by rewrite Hs_old. }
  assert (C.o c = find_player (id_is (state_o old)) (C.players c)) as Hoc.
  { unfold C.o, C.seat_o. by rewrite Hs_old. }
  rewrite <- Hxc, <- Hoc in Hturn_old, Hturn_new.
  eexists _, _. split; [exact Hupd |].
  set (ours := same_player (Some (ourPlayer (C._townController c)))) in *.
  split.
  - rewrite turnChanged_in_events. rewrite Hturn_old, Hturn_new.
    destruct (Nat.even (length (state_moves old))); cbn [negb];
      destruct (ours (C.x c)), (ours (C.o c)); cbn; split; congruence.
  - intros v Hv. rewrite !elem_of_app in Hv. destruct Hv as [H | [H | H]].
    + by apply inherited_not_turnChanged in H.
    + destruct changed; [| by apply elem_of_nil in H].
      apply list_elem_of_singleton in H. discriminate H.
    + destruct (eqb (C.isOurTurn c) (C.isOurTurn (super c newModel).1))
        eqn:Heqb; cbn [negb] in H; [by apply elem_of_nil in H |].
      apply list_elem_of_singleton in H. inversion H; subst.
      apply eqb_false_iff in Heqb.
      by destruct (C.isOurTurn c), (C.isOurTurn (super c newModel).1).
Qed.

Lemma updateFrom_turn_passes_witness :
  ∃ c' events,
    C._updateFrom base_updateFrom
      (sample_controller IN_PROGRESS [] (Some "game") bob)
      (sample_model IN_PROGRESS [mkMove Piece.X 1 1]) = inr (c', events) ∧
    ((∃ v, C.turnChanged v ∈ events) ↔
     same_player (Some bob)
       (C.x (sample_controller IN_PROGRESS [] (Some "game") bob)) ≠
     same_player (Some bob)
       (C.o (sample_controller IN_PROGRESS [] (Some "game") bob))) ∧
    (∀ v, C.turnChanged v ∈ events →
          v = negb (C.isOurTurn
                      (sample_controller IN_PROGRESS [] (Some "game") bob))).
Proof.
  apply (updateFrom_turn_passes base_updateFrom
           (sample_controller IN_PROGRESS [] (Some "game") bob)
           (sample_model IN_PROGRESS [mkMove Piece.X 1 1])
           (sample_state IN_PROGRESS [])
           (sample_state IN_PROGRESS [mkMove Piece.X 1 1]));
    try reflexivity.
  - apply Forall_nil_2.
  - repeat constructor.
Defined.

(** ** More on the leaderboard *)

Lemma leaderboard_rows (results : list GameResult) :
  well_keyed results →
  NoDup (L.Leaderboard results) ∧
  ∀ s, s ∈ L.Leaderboard results ↔
       ∃ p, p ∈ encountered results ∧ s = expected_row results p.
Proof.
  intros Hwf. pose proof (tally_tallied results Hwf) as Ht.
  pose proof (tallied_names results _ Ht) as Hnames.
  destruct Ht as [Hnd Hget].
  assert (L.Leaderboard results ≡ₚ map snd (L.tally results)) as Hperm
    by apply sort_by_wins_perm.
  split.
  - rewrite Hperm. apply (NoDup_fmap_1 L.name).
    change (NoDup (map L.name (map snd (L.tally results)))).
    by rewrite Hnames.
  - intros s. rewrite Hperm. split.
    + intros Hs. apply list_elem_of_fmap in Hs as ([k s'] & -> & Hin).
      destruct (tallied_entry results _ k s' (conj Hnd Hget) Hin) as [Hk ->].
      by exists k.
    + intros (p & Hp & ->).
      specialize (Hget p). rewrite decide_True in Hget by done.
      apply list_elem_of_fmap. exists (p, expected_row results p).
      split; [done |].
      clear -Hget. induction (L.tally results) as [| [k v] m IH];
        cbn in Hget; [done |].
      destruct (String.eqb_spec p k) as [-> | Hk].
      * inversion Hget; subst. by left.
      * right. by apply IH.
Qed.

Lemma filter_all {A} (P : A → Prop) `{∀ x, Decision (P x)} (l : list A) :
  (∀ x, x ∈ l → P x) → filter P l = l.
Proof.
  induction l as [| x l IH]; intros Hall; [done |].
  rewrite filter_cons_True by (apply Hall; by left).
  f_equal. apply IH. intros y Hy. apply Hall. by right.
Qed.

Lemma length_filter_ne (p : string) (l : list string) :
  NoDup l → p ∈ l → length (filter (λ q, q ≠ p) l) = length l - 1.
Proof.
  induction l as [| q l IH]; intros Hnd Hin.
  - by apply elem_of_nil in Hin.
  - apply NoDup_cons in Hnd as [Hfresh Hnd]. rewrite filter_cons.
    destruct (decide (q ≠ p)) as [Hne | Heq].
    + apply elem_of_cons in Hin as [-> | Hin]; [done |].
      cbn [length]. rewrite IH by done.
      destruct l; [by apply elem_of_nil in Hin | cbn; lia].
    + apply dec_stable in Heq as ->. cbn [length].
      rewrite filter_all; [lia |]. by intros q Hq ->.
Qed.

Lemma pair_with_self (r : GameResult) (p : string) :
  beats r p p = false ∧ ties_with r p p = false.
Proof.
  unfold beats, ties_with. destruct (L.score_of (scores r) p); [| done].
  by rewrite (bool_decide_eq_false_2 (p ≠ p)) by (by intros H).
Qed.

Lemma pair_with_other (r : GameResult) (p q : string) (a b : Z) :
  L.score_of (scores r) p = Some a → L.score_of (scores r) q = Some b →
  p ≠ q →
  beats r p q = bool_decide (b < a)%Z ∧
  beats r q p = bool_decide (a < b)%Z ∧
  ties_with r p q = bool_decide (a = b).
Proof.
  intros Ha Hb Hne. unfold beats, ties_with. rewrite Ha, Hb.
  rewrite (bool_decide_eq_true_2 (p ≠ q)) by done.
  by rewrite (bool_decide_eq_true_2 (q ≠ p)) by done.
Qed.

Lemma pair_outcomes (r : GameResult) (p : string) (l : list string) :
  p ∈ players_of r → (∀ q, q ∈ l → q ∈ players_of r) →
  length (filter (λ q, beats r p q) l)
  + length (filter (λ q, beats r q p) l)
  + length (filter (λ q, ties_with r p q) l)
  = length (filter (λ q, q ≠ p) l).
Proof.
  intros Hp. destruct (score_of_Some _ _ Hp) as [a Ha].
  induction l as [| q l IH]; intros Hl; [done |].
  destruct (score_of_Some (scores r) q) as [b Hb]; [apply Hl; by left |].
  rewrite !length_filter_cons_bool, filter_cons.
  specialize (IH ltac:(intros q' Hq'; apply Hl; by right)).
  destruct (decide (q ≠ p)) as [Hne | Heq].
  - destruct (pair_with_other r p q a b Ha Hb) as (-> & -> & ->); [done |].
    cbn [length].
    destruct (Z.lt_trichotomy a b) as [Hlt | [Heq | Hgt]].
    + rewrite (bool_decide_eq_false_2 (b < a)%Z) by lia.
      rewrite (bool_decide_eq_true_2 (a < b)%Z) by done.
      rewrite (bool_decide_eq_false_2 (a = b)) by lia. lia.
    + rewrite (bool_decide_eq_false_2 (b < a)%Z) by lia.
      rewrite (bool_decide_eq_false_2 (a < b)%Z) by lia.
      rewrite (bool_decide_eq_true_2 (a = b)) by done. lia.
    + rewrite (bool_decide_eq_true_2 (b < a)%Z) by lia.
      rewrite (bool_decide_eq_false_2 (a < b)%Z) by lia.
      rewrite (bool_decide_eq_false_2 (a = b)) by lia. lia.
  - apply dec_stable in Heq as ->.
    destruct (pair_with_self r p) as [-> ->]. lia.
Qed.

Lemma counts_in_result (r : GameResult) (p : string) :
  NoDup (players_of r) →
  wins_in r p + losses_in r p + ties_in r p = opponents_in r p.
Proof.
  intros Hnd. unfold opponents_in.
  destruct (decide (p ∈ players_of r)) as [Hp | Hp].
  - unfold wins_in, losses_in, ties_in.
    rewrite pair_outcomes by done. by apply length_filter_ne.
  - destruct (absent_player_counts r p Hp) as (-> & -> & ->). done.
Qed.

(** Each row accounts for every opponent its player met: wins, losses
    and ties add up to the number of other players over the results
    the player appears in. *)
Theorem leaderboard_games_played (results : list GameResult) (s : L.PlayerStats) :
  well_keyed results → s ∈ L.Leaderboard results →
  L.wins s + L.losses s + L.ties s =
  sum_list_with (λ r, opponents_in r (L.name s)) results.
Proof.
  intros Hwf Hs.
  apply (leaderboard_rows results Hwf) in Hs as (p & _ & ->).
  cbn [expected_row L.name L.wins L.losses L.ties].
  unfold well_keyed in Hwf.
  induction results as [| r results IH]; [done |].
  apply Forall_cons in Hwf as [Hr Hwf]. cbn [sum_list_with].
  rewrite <- (counts_in_result r p Hr). specialize (IH Hwf). lia.
Qed.

Lemma leaderboard_games_played_witness :
  L.wins (expected_row one_win "A") + L.losses (expected_row one_win "A")
  + L.ties (expected_row one_win "A") =
  sum_list_with (λ r, opponents_in r "A") one_win.
Proof.
  apply (leaderboard_games_played one_win (expected_row one_win "A")).
  - repeat constructor; rewrite ?elem_of_cons, ?elem_of_nil;
      intuition discriminate.
  - vm_compute. by left.
Defined.

Lemma sum_list_with_add {A} (f g : A → nat) (l : list A) :
  sum_list_with (λ a, f a + g a) l = sum_list_with f l + sum_list_with g l.
Proof. induction l as [| a l IH]; simpl; lia. Qed.

Lemma sum_list_with_ext_in {A} (f g : A → nat) (l : list A) :
  (∀ a, a ∈ l → f a = g a) → sum_list_with f l = sum_list_with g l.
Proof.
  induction l as [| a l IH]; intros Hfg; [done |]. simpl.
  rewrite (Hfg a) by (by left). rewrite IH; [done |].
  intros b Hb. apply Hfg. by right.
Qed.

Lemma sum_list_with_zero {A} (f : A → nat) (l : list A) :
  (∀ a, a ∈ l → f a = 0) → sum_list_with f l = 0.
Proof.
  intros Hf. rewrite (sum_list_with_ext_in f (λ _, 0)) by done.
  clear Hf. induction l; simpl; lia.
Qed.

Lemma sum_list_with_map {A B} (h : A → B) (f : B → nat) (l : list A) :
  sum_list_with f (map h l) = sum_list_with (λ a, f (h a)) l.
Proof. induction l as [| a l IH]; simpl; lia. Qed.

Lemma sum_swap {A B} (g : A → B → nat) (l1 : list A) (l2 : list B) :
  sum_list_with (λ a, sum_list_with (λ b, g a b) l2) l1 =
  sum_list_with (λ b, sum_list_with (λ a, g a b) l1) l2.
Proof.
  induction l1 as [| a l1 IH]; simpl.
  - symmetry. by apply sum_list_with_zero.
  - by rewrite sum_list_with_add, IH.
Qed.

Lemma length_filter_sum {A} (f : A → bool) (l : list A) :
  length (filter (λ y, f y) l) = sum_list_with (λ y, if f y then 1 else 0) l.
Proof.
  induction l as [| a l IH]; [done |].
  rewrite length_filter_cons_bool. simpl. lia.
Qed.

(** Restricting a sum to the part of the list where the summand may be
    non-zero. *)
Lemma sum_restrict (g : string → nat) (names P : list string) :
  NoDup names → NoDup P → (∀ p, p ∈ P → p ∈ names) →
  (∀ p, p ∉ P → g p = 0) →
  sum_list_with g names = sum_list_with g P.
Proof.
  intros Hnames HP Hsub Hzero.
  rewrite <- (filter_app_complement (λ p, p ∈ P) names).
  rewrite sum_list_with_app.
  rewrite (sum_list_with_zero g (filter (λ p, p ∉ P) names)).
  - rewrite Nat.add_0_r.
    apply sum_list_with_Permutation_proper, NoDup_Permutation;
      [by apply NoDup_filter | done |].
    intros p. rewrite list_elem_of_filter. split; [by intros [? _] |].
    intros Hp. split; [done | by apply Hsub].
  - intros p Hp. apply list_elem_of_filter in Hp as [Hp _]. by apply Hzero.
Qed.

Lemma wins_losses_in_result (r : GameResult) :
  sum_list_with (wins_in r) (players_of r) =
  sum_list_with (losses_in r) (players_of r).
Proof.
  unfold wins_in, losses_in.
  rewrite (sum_list_with_ext_in _
             (λ p, sum_list_with (λ q, if beats r p q then 1 else 0)
                     (players_of r)))
    by (intros p _; apply (length_filter_sum (beats r p))).
  rewrite sum_swap.
  apply sum_list_with_ext_in. intros q _.
  symmetry. apply (length_filter_sum (λ p, beats r p q)).
Qed.

Lemma tally_values (results : list GameResult) :
  well_keyed results →
  map snd (L.tally results) =
  map (expected_row results) (map fst (L.tally results)).
Proof.
  intros Hwf. pose proof (tally_tallied results Hwf) as Ht.
  assert (∀ k s, (k, s) ∈ L.tally results → s = expected_row results k)
    as Hrows.
  { intros k s Hin. by destruct (tallied_entry results _ k s Ht Hin). }
  clear Ht. induction (L.tally results) as [| [k s] m IH]; [done |].
  cbn [map fst snd]. f_equal.
  - apply Hrows. by left.
  - apply IH. intros k' s' Hin. apply Hrows. by right.
Qed.

Lemma tally_names (results : list GameResult) :
  well_keyed results →
  NoDup (map fst (L.tally results)) ∧
  ∀ p, p ∈ map fst (L.tally results) ↔ p ∈ encountered results.
Proof.
  intros Hwf. destruct (tally_tallied results Hwf) as [Hnd Hget].
  split; [done |]. intros p. specialize (Hget p).
  destruct (decide (p ∈ encountered results)) as [Hp | Hp].
  - split; [done |]. intros _.
    destruct (decide (p ∈ map fst (L.tally results))) as [| Hn]; [done |].
    apply map_get_None in Hn. congruence.
  - split; [| done]. intros Hin. by apply map_get_None in Hget.
Qed.

(** Over the whole table the wins add up to the losses: every pair a
    player wins is the pair another player loses. *)
Theorem leaderboard_wins_equal_losses (results : list GameResult) :
  well_keyed results →
  sum_list_with L.wins (L.Leaderboard results) =
  sum_list_with L.losses (L.Leaderboard results).
Proof.
  intros Hwf. destruct (tally_names results Hwf) as [Hnd Hnames].
  assert (L.Leaderboard results ≡ₚ
          map (expected_row results) (map fst (L.tally results))) as Hperm.
  { unfold L.Leaderboard. rewrite sort_by_wins_perm. by rewrite tally_values. }
  rewrite !Hperm, !(sum_list_with_map (expected_row results)).
  cbn [expected_row L.wins L.losses].
  rewrite !(sum_swap _ (map fst (L.tally results)) results).
  apply sum_list_with_ext_in. intros r Hr.
  assert (NoDup (players_of r)) as HP.
  { unfold well_keyed in Hwf. rewrite Forall_forall in Hwf. by apply Hwf. }
  assert (∀ p, p ∈ players_of r → p ∈ map fst (L.tally results)) as Hsub.
  { intros p Hp. apply Hnames, encountered_spec. by exists r. }
  rewrite (sum_restrict (λ p, wins_in r p) _ (players_of r)); [| done..|].
  2: { intros p Hp. by destruct (absent_player_counts r p Hp) as (? & _). }
  rewrite (sum_restrict (λ p, losses_in r p) _ (players_of r)); [| done..|].
  2: { intros p Hp. by destruct (absent_player_counts r p Hp) as (_ & ? & _). }
  apply wins_losses_in_result.
Qed.

Lemma leaderboard_wins_equal_losses_witness :
  sum_list_with L.wins
    (L.Leaderboard
       [ {| gameID := "g1"; scores := [("A", 1%Z); ("B", 0%Z); ("C", 2%Z)] |};
         {| gameID := "g2"; scores := [("B", 1%Z); ("D", 1%Z)] |} ]) =
  sum_list_with L.losses
    (L.Leaderboard
       [ {| gameID := "g1"; scores := [("A", 1%Z); ("B", 0%Z); ("C", 2%Z)] |};
         {| gameID := "g2"; scores := [("B", 1%Z); ("D", 1%Z)] |} ]).
Proof.
  apply leaderboard_wins_equal_losses.
  repeat constructor; rewrite ?elem_of_cons, ?elem_of_nil;
    intuition discriminate.
Defined.

Lemma expected_row_perm (results results' : list GameResult) (p : string) :
  results ≡ₚ results' → expected_row results p = expected_row results' p.
Proof.
  intros Hperm. unfold expected_row.
  by rewrite !(sum_list_with_Permutation_proper _ _ _ Hperm).
Qed.

Lemma encountered_perm (results results' : list GameResult) (p : string) :
  results ≡ₚ results' → p ∈ encountered results ↔ p ∈ encountered results'.
Proof.
  intros Hperm. rewrite !encountered_spec.
  split; intros (r & Hr & Hp); exists r; split; try done.
  - by rewrite <- Hperm.
  - by rewrite Hperm.
Qed.

(** The order of the results does not change any row: the tables of
    two orderings of the same results hold the same rows (the order
    among rows with equal wins may differ). *)
Theorem leaderboard_result_order (results results' : list GameResult) :
  well_keyed results → results ≡ₚ results' →
  L.Leaderboard results ≡ₚ L.Leaderboard results'.
Proof.
  intros Hwf Hperm.
  assert (well_keyed results') as Hwf'.
  { unfold well_keyed. by rewrite <- Hperm. }
  destruct (leaderboard_rows results Hwf) as [Hnd Hrows].
  destruct (leaderboard_rows results' Hwf') as [Hnd' Hrows'].
  apply NoDup_Permutation; [done | done |].
  intros s. rewrite Hrows, Hrows'.
  split; intros (p & Hp & ->); exists p.
  - split; [by apply (encountered_perm results results') |].
    by apply expected_row_perm.
  - split; [by apply (encountered_perm results results') |].
    symmetry. by apply expected_row_perm.
Qed.

Lemma leaderboard_result_order_witness :
  L.Leaderboard
    [ {| gameID := "g1"; scores := [("A", 1%Z); ("B", 0%Z)] |};
      {| gameID := "g2"; scores := [("B", 1%Z); ("C", 0%Z)] |} ] ≡ₚ
  L.Leaderboard
    [ {| gameID := "g2"; scores := [("B", 1%Z); ("C", 0%Z)] |};
      {| gameID := "g1"; scores := [("A", 1%Z); ("B", 0%Z)] |} ].
Proof.
  apply leaderboard_result_order.
  - repeat constructor; rewrite ?elem_of_cons, ?elem_of_nil;
      intuition discriminate.
  - apply Permutation_swap.
Defined.

Lemma insert_by_wins_stable (w : nat) (s : L.PlayerStats)
    (l : list L.PlayerStats) :
  filter (λ t, L.wins t = w) (L.insert_by_wins s l) =
  filter (λ t, L.wins t = w) (s :: l).
Proof.
  induction l as [| s' l IH]; cbn [L.insert_by_wins]; [done |].
  case_decide as Hle; [done |].
  rewrite (filter_cons _ s'), IH, !(filter_cons _ s), (filter_cons _ s').
  destruct (decide (L.wins s' = w)), (decide (L.wins s = w)); try done.
  lia.
Qed.

Lemma sort_by_wins_stable (w : nat) (l : list L.PlayerStats) :
  filter (λ t, L.wins t = w) (L.sort_by_wins l) =
  filter (λ t, L.wins t = w) l.
Proof.
  induction l as [| s l IH]; [done |].
  unfold L.sort_by_wins. cbn [foldr]. fold (L.sort_by_wins l).
  rewrite insert_by_wins_stable, !(filter_cons _ s), IH. done.
Qed.

Lemma tally_players_keys (sc : list (string * Z)) (players ps : list string)
    (m : L.StatsMap) :
  map fst (foldl (L.tally_player sc players) m ps) =
  foldl (λ seen p, if decide (p ∈ seen) then seen else seen ++ [p])
        (map fst m) ps.
Proof.
  revert m. induction ps as [| p ps IH]; intros m; [done |].
  cbn [foldl]. rewrite IH. unfold L.tally_player. by rewrite map_set_keys.
Qed.

Lemma tally_results_keys (results : list GameResult) (m : L.StatsMap) :
  map fst (foldl L.tally_result m results) =
  foldl (λ seen p, if decide (p ∈ seen) then seen else seen ++ [p])
        (map fst m) (encountered results).
Proof.
  revert m. induction results as [| r results IH]; intros m; [done |].
  cbn [foldl]. rewrite IH. unfold encountered. cbn [map concat].
  rewrite foldl_app. unfold L.tally_result. by rewrite tally_players_keys.
Qed.

(** The rows come out in descending order of wins and, among the
    players with the same number of wins, in the order in which the
    players first appear in the results. *)
Theorem leaderboard_first_seen_order (results : list GameResult) (w : nat) :
  well_keyed results →
  filter (λ s, L.wins s = w) (L.Leaderboard results) =
  filter (λ s, L.wins s = w)
         (map (expected_row results) (first_seen (encountered results))).
Proof.
  intros Hwf. unfold L.Leaderboard.
  rewrite sort_by_wins_stable, tally_values by done.
  unfold L.tally, first_seen. by rewrite tally_results_keys.
Qed.

Lemma leaderboard_first_seen_order_witness :
  filter (λ s, L.wins s = 0)
    (L.Leaderboard
       [ {| gameID := "g1"; scores := [("C", 0%Z); ("A", 0%Z)] |};
         {| gameID := "g2"; scores := [("B", 0%Z); ("A", 1%Z)] |} ]) =
  [ {| L.name := "C"; L.wins := 0; L.losses := 0; L.ties := 1 |};
    {| L.name := "B"; L.wins := 0; L.losses := 1; L.ties := 0 |} ].
Proof.
  rewrite (leaderboard_first_seen_order
             [ {| gameID := "g1"; scores := [("C", 0%Z); ("A", 0%Z)] |};
               {| gameID := "g2"; scores := [("B", 0%Z); ("A", 1%Z)] |} ] 0).
  - reflexivity.
  - repeat constructor; rewrite ?elem_of_cons, ?elem_of_nil;
      intuition discriminate.
Defined.

Lemma score_of_map_scores (f : Z → Z) (sc : list (string * Z)) (p : string) :
  L.score_of (map (λ kv, (kv.1, f kv.2)) sc) p = f <$> L.score_of sc p.
Proof.
  induction sc as [| [k v] sc IH]; [done |]. cbn.
  by destruct (String.eqb p k).
Qed.

Lemma js_gt_monotone (f : Z → Z) (a b : option Z) :
  (∀ x y, (x < y)%Z ↔ (f x < f y)%Z) →
  L.js_gt (f <$> a) (f <$> b) = L.js_gt a b.
Proof.
  intros Hf. destruct a as [a |], b as [b |]; try done. cbn.
  destruct (Z.ltb_spec b a) as [Hlt | Hge].
  - apply Z.ltb_lt. by apply (proj1 (Hf b a)).
  - apply Z.ltb_ge. destruct (Z.le_gt_cases (f a) (f b)) as [| Hgt]; [done |].
    apply (proj2 (Hf b a)) in Hgt. lia.
Qed.

Lemma foldl_ext_eq {A B} (g h : A → B → A) (a : A) (l : list B) :
  (∀ x y, g x y = h x y) → foldl g a l = foldl h a l.
Proof.
  intros Hgh. revert a. induction l as [| b l IH]; intros a; [done |].
  cbn [foldl]. by rewrite Hgh, IH.
Qed.

Lemma tally_result_map_scores (f : Z → Z) (m : L.StatsMap) (r : GameResult) :
  (∀ x y, (x < y)%Z ↔ (f x < f y)%Z) →
  L.tally_result m (map_scores f r) = L.tally_result m r.
Proof.
  intros Hf. unfold L.tally_result, map_scores. cbn [scores].
  rewrite map_map. cbn [fst].
  apply foldl_ext_eq. intros m' p. unfold L.tally_player. f_equal.
  apply foldl_ext_eq. intros s q. unfold L.compare_with, L.js_lt.
  by rewrite !score_of_map_scores, !js_gt_monotone.
Qed.

(** Only the order of the scores within a result matters, not their
    size: sending every score through a strictly increasing function
    leaves the table unchanged. *)
Theorem leaderboard_scores_order_only (f : Z → Z) (results : list GameResult) :
  (∀ x y, (x < y)%Z ↔ (f x < f y)%Z) →
  L.Leaderboard (map (map_scores f) results) = L.Leaderboard results.
Proof.
  intros Hf. unfold L.Leaderboard, L.tally. do 2 f_equal.
  generalize (@nil (string * L.PlayerStats)).
  induction results as [| r results IH]; intros m; [done |].
  cbn [map foldl]. by rewrite tally_result_map_scores, IH.
Qed.

Lemma leaderboard_scores_order_only_witness :
  L.Leaderboard
    (map (map_scores (λ x, 10 * x + 3)%Z)
       [ {| gameID := "g1"; scores := [("A", 1%Z); ("B", 0%Z); ("C", 1%Z)] |} ]) =
  L.Leaderboard
    [ {| gameID := "g1"; scores := [("A", 1%Z); ("B", 0%Z); ("C", 1%Z)] |} ].
Proof.
  apply (leaderboard_scores_order_only (λ x, 10 * x + 3)%Z).
  intros x y. lia.
Defined.

(** Results that do not mention a player leave that player's row as
    it was. *)
Theorem leaderboard_unmentioned (results extra : list GameResult)
    (s : L.PlayerStats) :
  well_keyed (results ++ extra) →
  L.name s ∉ encountered extra →
  s ∈ L.Leaderboard (results ++ extra) ↔ s ∈ L.Leaderboard results.
Proof.
  intros Hwf Hname.
  assert (well_keyed results) as Hwf1.
  { unfold well_keyed in *. by apply Forall_app in Hwf as [? _]. }
  assert (∀ p, p ∉ encountered extra →
               expected_row (results ++ extra) p = expected_row results p)
    as Hrow.
  { intros p Hp. unfold expected_row. rewrite !sum_list_with_app.
    pose proof (expected_row_absent extra p Hp) as Hzero.
    pose proof (f_equal L.wins Hzero) as Hw.
    pose proof (f_equal L.losses Hzero) as Hl.
    pose proof (f_equal L.ties Hzero) as Ht.
    cbn [expected_row L.wins L.losses L.ties] in Hw, Hl, Ht.
    rewrite Hw, Hl, Ht. f_equal; lia. }
  assert (∀ p, p ∈ encountered (results ++ extra) ↔
               p ∈ encountered results ∨ p ∈ encountered extra) as Henc.
  { intros p. unfold encountered. by rewrite map_app, concat_app, elem_of_app. }
  rewrite (proj2 (leaderboard_rows _ Hwf) s).
  rewrite (proj2 (leaderboard_rows _ Hwf1) s).
  split.
  - intros (p & Hp & Hs). subst s. cbn [expected_row L.name] in Hname.
    exists p. apply Henc in Hp as [Hp | Hp]; [| done].
    split; [done |]. by apply Hrow.
  - intros (p & Hp & Hs). subst s. cbn [expected_row L.name] in Hname.
    exists p. split; [apply Henc; by left |]. symmetry. by apply Hrow.
Qed.

Lemma leaderboard_unmentioned_witness :
  expected_row one_win "A" ∈
    L.Leaderboard
      (one_win ++ [ {| gameID := "g2"; scores := [("B", 1%Z); ("C", 0%Z)] |} ]) ↔
  expected_row one_win "A" ∈ L.Leaderboard one_win.
Proof.
  apply (leaderboard_unmentioned one_win
           [ {| gameID := "g2"; scores := [("B", 1%Z); ("C", 0%Z)] |} ]
           (expected_row one_win "A")).
  - repeat constructor; rewrite ?elem_of_cons, ?elem_of_nil;
      intuition discriminate.
  - apply (bool_decide_unpack (_ ∉ _)). by vm_compute.
Defined.

Lemma handleSquareClick_toasts_witness :
  TicTacToeBoard.handleSquareClick acknowledge "" idle_controller 0 0 =
    ([TicTacToeBoard.mkToast "Error: No game in progress" "error"], []) ∧
  TicTacToeBoard.handleSquareClick acknowledge ""
    (sample_controller IN_PROGRESS [] (Some "game") carol) 0 0 =
    ([TicTacToeBoard.mkToast "Error: Player is not in game" "error"], []).
Proof.
  split.
  - apply (proj1 (handleSquareClick_toasts acknowledge "" idle_controller 0 0)).
    reflexivity.
  - apply (proj1 (proj2 (handleSquareClick_toasts acknowledge ""
                           (sample_controller IN_PROGRESS [] (Some "game") carol)
                           0 0))); reflexivity.
Defined.
